(** * smart_open: streaming reads and writes over S3 / HDFS / local files

    A shallow embedding of [smart_open/smart_open_lib.py] and the
    properties of its URI parser, its line-streaming reader, its
    multipart upload writer and its parallel bucket iterator. *)

From Stdlib Require Import Ascii String ZArith Lia Bool List Permutation.
From Stdlib.Strings Require Import Byte.
From Equations Require Import Equations.
From Equations.Prop Require Import Logic.
Import ListNotations.

Set Implicit Arguments.
Open Scope Z_scope.

(** ** Python values shared by the components *)

(** A Python [bytes] object. *)
Definition bytes := list byte.

(** The exceptions the module raises itself, the [ValueError] of a failed
    tuple unpacking or of [urlsplit], and the errors the S3 client
    raises, which are opaque to this module and carry a tag. *)
Inductive exn :=
| RuntimeError
| NotImplementedError
| ValueError
| TypeError
| KeyError
| BotoError (tag : nat).

(** The result of a call that either returns or raises. *)
Inductive result (A : Type) :=
| Ok (a : A)
| Raise (e : exn).
Arguments Ok {A} a.
Arguments Raise {A} e.

(** [len(b)] *)
Definition len {A} (l : list A) : Z := Z.of_nat (length l).

(** [b"".join(lines)] *)
Definition join (lines : list bytes) : bytes := concat lines.

(** Truth value of a sequence: [if buf:]. *)
Definition truthy {A} (l : list A) : bool :=
  match l with [] => false | _ :: _ => true end.

(** ** Line-streaming reader: [s3_iter_lines] *)

Module LineReader.

Definition newline : byte := x0a.

(** Offset of the first occurrence of [c] in [s]. *)
Fixpoint index_of (c : byte) (s : bytes) : option nat :=
  match s with
  | [] => None
  | x :: r => if Byte.eqb x c then Some O
              else option_map S (index_of c r)
  end.

(** [buf.find(c, start)] for a one-byte needle and [0 <= start]: the
    lowest index at or after [start] holding [c], and [-1] when there is
    none. *)
Definition find (buf : bytes) (c : byte) (start : Z) : Z :=
  match index_of c (skipn (Z.to_nat start) buf) with
  | Some i => start + Z.of_nat i
  | None => -1
  end.

(** [buf[start : end]] and [buf[start :]] for non-negative bounds. *)
Definition slice (buf : bytes) (start end_ : Z) : bytes :=
  firstn (Z.to_nat (end_ - start)) (skipn (Z.to_nat start) buf).

Definition slice_from (buf : bytes) (start : Z) : bytes :=
  skipn (Z.to_nat start) buf.

Lemma index_of_lt c s i : index_of c s = Some i -> (i < length s)%nat.
Proof.
  revert i; induction s as [|x r IH]; simpl; intros i H; [discriminate|].
  destruct (Byte.eqb x c).
  - injection H as <-. lia.
  - destruct (index_of c r) as [j|]; [|discriminate].
    injection H as <-. specialize (IH j eq_refl). lia.
Qed.

Lemma find_bounds buf start e :
  find buf newline start + 1 = e -> e <> 0 ->
  start < e /\ (start < 0 \/ e <= len buf).
Proof.
  unfold find, len. intros <- Hne.
  destruct (index_of newline (skipn (Z.to_nat start) buf)) as [i|] eqn:E;
    [|contradiction Hne; reflexivity].
  apply index_of_lt in E. rewrite length_skipn in E. lia.
Qed.

(** The inner [while True:] loop of [s3_iter_lines]: starting at offset
    [start] of the buffer, the lines yielded and the buffer left when the
    loop breaks. *)
Equations? scan (buf : bytes) (start : Z) : list bytes * bytes
  by wf (Z.to_nat (len buf - start)) lt :=
  scan buf start with inspect (find buf newline start + 1 =? 0) => {
    | exist _ true _ := ([], slice_from buf start)
    | exist _ false Hnz :=
        let end_ := find buf newline start + 1 in
        let r := scan buf end_ in
        (slice buf start end_ :: fst r, snd r) }.
Proof.
  apply Z.eqb_neq in Hnz.
  destruct (find_bounds buf start eq_refl Hnz) as [H1 H2].
  unfold len, find in *.
  destruct (index_of newline (skipn (Z.to_nat start) buf)) as [i|] eqn:E;
    [|lia].
  apply index_of_lt in E. rewrite length_skipn in E. lia.
Qed.

(** The generator, as the list of what it yields: [buf] is the line
    buffer carried from one chunk to the next. *)
Fixpoint iter_chunks (buf : bytes) (chunks : list bytes) : list bytes :=
  match chunks with
  | [] => if truthy buf then [buf] else []
  | chunk :: rest =>
      let r := scan (buf ++ chunk) 0 in
      fst r ++ iter_chunks (snd r) rest
  end.

(** [s3_iter_lines(key)]: [key] is a [boto.s3.key.Key], iterated as the
    sequence of chunks it delivers. *)
Definition s3_iter_lines (key : list bytes) : list bytes :=
  iter_chunks [] key.

(** [line.endswith(b"\n")] *)
Definition ends_with_newline (line : bytes) : bool :=
  match rev line with
  | c :: _ => Byte.eqb c newline
  | [] => false
  end.

(** The lines of a byte string, cut after every newline: what
    [data.splitlines(True)] gives when [\n] is the only line break. *)
Fixpoint lines_of (s : bytes) : list bytes :=
  match s with
  | [] => []
  | c :: r =>
      if Byte.eqb c newline then [c] :: lines_of r
      else match lines_of r with
           | [] => [[c]]
           | l :: ls => (c :: l) :: ls
           end
  end.

(** [data.count(b"\n")] *)
Fixpoint count_newlines (s : bytes) : nat :=
  match s with
  | [] => O
  | c :: r => ((if Byte.eqb c newline then 1 else 0) + count_newlines r)%nat
  end.

(** A line with its newline: bytes without a newline, then one. *)
Definition complete (l : bytes) : Prop :=
  exists pre, l = pre ++ [newline] /\ index_of newline pre = None.

End LineReader.

(** ** URI resolver: [ParseUri] *)

Module Uri.

Local Open Scope string_scope.

(** [if s:] on a [str]. *)
Definition nonempty (s : string) : bool :=
  match s with EmptyString => false | String _ _ => true end.

(** [c in s] for a one-character [c]. *)
Fixpoint mem (c : ascii) (s : string) : bool :=
  match s with
  | EmptyString => false
  | String x r => Ascii.eqb x c || mem c r
  end.

(** [sub in s], by trying every offset. *)
Fixpoint contains (sub s : string) : bool :=
  String.prefix sub s ||
  match s with
  | EmptyString => false
  | String _ r => contains sub r
  end.

(** [s.split(c)]: the fields between the occurrences of [c]; never an
    empty list. *)
Fixpoint split (c : ascii) (s : string) : list string :=
  match s with
  | EmptyString => [EmptyString]
  | String x r =>
      if Ascii.eqb x c then EmptyString :: split c r
      else match split c r with
           | h :: t => String x h :: t
           | [] => [String x EmptyString]
           end
  end.

(** [s.split(c, 1)]: cut at the first occurrence of [c] only. *)
Fixpoint split1 (c : ascii) (s : string) : list string :=
  match s with
  | EmptyString => [EmptyString]
  | String x r =>
      if Ascii.eqb x c then [EmptyString; r]
      else match split1 c r with
           | h :: t => String x h :: t
           | [] => [String x EmptyString]
           end
  end.

(** [s.lower()] on ASCII letters. *)
Definition lower_ascii (c : ascii) : ascii :=
  let n := nat_of_ascii c in
  if ((65 <=? n) && (n <=? 90))%nat then ascii_of_nat (n + 32) else c.

Fixpoint lower (s : string) : string :=
  match s with
  | EmptyString => EmptyString
  | String x r => String (lower_ascii x) (lower r)
  end.

(** *** The standard library's [urlsplit]

    [ParseUri] reads the [scheme], [netloc] and [path] of the
    [SplitResult] that [urlsplit] returns.  The function below follows
    [urllib.parse.urlsplit]: a leading run of scheme characters before
    the first colon is the scheme, [//] introduces the network location,
    which ends at the first of [/], [?] and [#]; the fragment and the
    query are cut off the rest, and what remains is the path. *)

Record SplitResult := {
  scheme : string;
  netloc : string;
  path : string;
  query : string;
  fragment : string }.

Definition is_alpha (c : ascii) : bool :=
  let n := nat_of_ascii c in
  (((65 <=? n) && (n <=? 90)) || ((97 <=? n) && (n <=? 122)))%nat.

Definition is_scheme_char (c : ascii) : bool :=
  let n := nat_of_ascii c in
  (is_alpha c || ((48 <=? n) && (n <=? 57)))%nat || mem c "+-.".

Fixpoint all_chars (p : ascii -> bool) (s : string) : bool :=
  match s with
  | EmptyString => true
  | String x r => p x && all_chars p r
  end.

(** [_splitnetloc(url, 2)] once the leading [//] is dropped: the prefix
    up to the first delimiter, and the rest from that delimiter on. *)
Fixpoint splitnetloc (url : string) : string * string :=
  match url with
  | EmptyString => (EmptyString, EmptyString)
  | String x r =>
      if mem x "/?#" then (EmptyString, url)
      else let p := splitnetloc r in (String x (fst p), snd p)
  end.

(** [url, rest = url.split(c, 1)] guarded by [if c in url]. *)
Definition cut (c : ascii) (url : string) : string * string :=
  match split1 c url with
  | [a; b] => (a, b)
  | _ => (url, EmptyString)
  end.

Definition urlsplit (url : string) : result SplitResult :=
  let (scheme, url) :=
    match split1 ":" url with
    | [String x pre; rest] =>
        if is_alpha x && all_chars is_scheme_char pre
        then (lower (String x pre), rest)
        else (EmptyString, url)
    | _ => (EmptyString, url)
    end in
  let (netloc, url) :=
    match url with
    | String "/" (String "/" r) => splitnetloc r
    | _ => (EmptyString, url)
    end in
  if (mem "[" netloc && negb (mem "]" netloc))
     || (mem "]" netloc && negb (mem "[" netloc))
  then Raise ValueError
  else
    let (url, fragment) := cut "#" url in
    let (url, query) := cut "?" url in
    Ok {| scheme := scheme; netloc := netloc; path := url;
          query := query; fragment := fragment |}.

(** *** [ParseUri]

    The attributes [ParseUri.__init__] sets: [scheme] and [uri_path] for
    [hdfs] and [file], and [scheme], [bucket_id], [key_id], [access_id]
    and [access_secret] for [s3] and [s3n]; [None] credentials are
    [None] here. *)
Inductive ParsedUri :=
| PathUri (scheme uri_path : string)
| S3Uri (scheme bucket_id key_id : string)
        (access_id access_secret : option string).

(** [self.bucket_id, self.key_id = s.split('/', 1)]: unpacking anything
    but two values raises [ValueError]. *)
Definition unpack2 (l : list string) : result (string * string) :=
  match l with
  | [a; b] => Ok (a, b)
  | _ => Raise ValueError
  end.

(** [ParseUri(uri, default_scheme)]; [nt] is [os.name == 'nt']. *)
Definition ParseUri (nt : bool) (uri default_scheme : string)
  : result ParsedUri :=
  let uri := if nt && negb (contains "://" uri)
             then "file://" ++ uri else uri in
  match urlsplit uri with
  | Raise e => Raise e
  | Ok parsed_uri =>
    let scheme := if nonempty (scheme parsed_uri)
                  then scheme parsed_uri else default_scheme in
    if scheme =? "hdfs" then
      let uri_path := netloc parsed_uri ++ path parsed_uri in
      if negb (nonempty uri_path) then Raise RuntimeError
      else Ok (PathUri scheme uri_path)
    else if (scheme =? "s3") || (scheme =? "s3n") then
      let bucket_id := split "@" (netloc parsed_uri ++ path parsed_uri) in
      if (length bucket_id =? 1)%nat then
        match unpack2 (split1 "/" (hd EmptyString bucket_id)) with
        | Raise e => Raise e
        | Ok (bucket_id, key_id) => Ok (S3Uri scheme bucket_id key_id None None)
        end
      else if ((length bucket_id =? 2)%nat &&
               (length (split ":" (hd EmptyString bucket_id)) =? 2)%nat)%bool
      then
        let acc := hd EmptyString bucket_id in
        let bucket_id := nth 1 bucket_id EmptyString in
        match unpack2 (split ":" acc) with
        | Raise e => Raise e
        | Ok (access_id, access_secret) =>
          match unpack2 (split1 "/" bucket_id) with
          | Raise e => Raise e
          | Ok (bucket_id, key_id) =>
              Ok (S3Uri scheme bucket_id key_id
                        (Some access_id) (Some access_secret))
          end
        end
      else Raise RuntimeError
    else if scheme =? "file" then
      let uri_path := netloc parsed_uri ++ path parsed_uri in
      if negb (nonempty uri_path) then Raise RuntimeError
      else Ok (PathUri scheme uri_path)
    else Raise NotImplementedError
  end.

(** [s.count(c)] for a one-character [c]. *)
Fixpoint count_char (c : ascii) (s : string) : nat :=
  match s with
  | EmptyString => O
  | String x r => ((if Ascii.eqb x c then 1 else 0) + count_char c r)%nat
  end.

(** The two schemes of the object store. *)
Definition s3_scheme (n : bool) : string := if n then "s3n" else "s3".

(** A string in which [urlsplit] finds no query, no fragment and no
    bracket of an IPv6 address. *)
Definition plain (s : string) : Prop :=
  mem "?" s = false /\ mem "#" s = false /\
  mem "[" s = false /\ mem "]" s = false.

(** The part of an S3 location that names the bucket and the key: what
    follows the last [@]. *)
Definition bucket_part (rest : string) : string :=
  last (split "@" rest) EmptyString.

End Uri.

(** ** The S3 client, as the writer sees it *)

(** The requests [S3OpenWrite] sends through [boto]. *)
Inductive call :=
| InitiateUpload
| UploadPart (part_num : Z) (data : bytes)
| CompleteUpload
| CancelUpload.

(** The backend: the requests received so far, oldest first, and the
    fate of the requests to come.  Every request takes the head of
    [script]: [Some e] makes the client raise [e], and [None], or a
    script that has run out, makes the request return. *)
Record backend := {
  trace : list call;
  script : list (option exn) }.

(** ** Chunked upload writer: [S3OpenWrite] *)

Module Writer.

(** Minimum part size for S3 multipart uploads, the default of
    [min_part_size]. *)
Definition S3_MIN_PART_SIZE : Z := 50 * 1024 ^ 2.

(** The instance attributes of a writer ([self.outbucket], [self.outkey]
    and [self.mp] name the upload on the backend).  The calls to
    [logger], among them the warning for a [min_part_size] under 5MB,
    touch neither the writer nor the backend and are left out. *)
Record S3OpenWrite := {
  min_part_size : Z;
  lines : list bytes;
  total_size : Z;
  chunk_bytes : Z;
  parts : Z }.

(** A writer together with the backend it talks to. *)
Record session := {
  self : S3OpenWrite;
  s3 : backend }.

(** Computations over a session that return or raise; what was done to
    the object and to the backend before a [raise] stays done. *)
Definition M (A : Type) : Type := session -> result A * session.

Definition ret {A} (a : A) : M A := fun st => (Ok a, st).

Definition raise {A} (e : exn) : M A := fun st => (Raise e, st).

Definition bind {A B} (m : M A) (k : A -> M B) : M B :=
  fun st =>
    match m st with
    | (Ok a, st') => k a st'
    | (Raise e, st') => (Raise e, st')
    end.

(** [try: m except: h] where the handler receives the exception. *)
Definition try_except {A} (m : M A) (h : exn -> M A) : M A :=
  fun st =>
    match m st with
    | (Ok a, st') => (Ok a, st')
    | (Raise e, st') => h e st'
    end.

Definition get_self : M S3OpenWrite := fun st => (Ok (self st), st).

Definition set_self (w : S3OpenWrite) : M unit :=
  fun st => (Ok tt, {| self := w; s3 := s3 st |}).

Declare Scope writer_scope.
Delimit Scope writer_scope with writer.
Notation "x <- m ;; k" := (bind m (fun x => k))
  (at level 61, m at next level, right associativity) : writer_scope.
Notation "m ;; k" := (bind m (fun _ => k))
  (at level 61, right associativity) : writer_scope.
Local Open Scope writer_scope.

(** One request to the backend. *)
Definition request (c : call) : M unit :=
  fun st =>
    let be := {| trace := trace (s3 st) ++ [c];
                 script := tl (script (s3 st)) |} in
    let st' := {| self := self st; s3 := be |} in
    match script (s3 st) with
    | Some e :: _ => (Raise e, st')
    | _ => (Ok tt, st')
    end.

(** What a caller may hand to [write]: a binary string, a text string
    (held as its UTF-8 encoding, so that [b.encode('utf8')] is a
    projection), or any other object. *)
Inductive pyobj :=
| PyBytes (b : bytes)
| PyText (utf8 : bytes)
| PyOther.

(** [S3OpenWrite.__init__]: the attributes after construction. *)
Definition new_writer (min_part_size : Z) : S3OpenWrite :=
  {| min_part_size := min_part_size;
     lines := [];
     total_size := 0;
     chunk_bytes := 0;
     parts := 0 |}.

Definition __init__ (min_part_size : Z) : M unit :=
  set_self (new_writer min_part_size) ;;
  request InitiateUpload.

(** [S3OpenWrite.write] *)
Definition write (b : pyobj) : M unit :=
  match b with
  | PyOther => raise TypeError
  | PyBytes b | PyText b =>
    w <- get_self ;;
    let w := {| min_part_size := min_part_size w;
                lines := lines w ++ [b];
                total_size := total_size w + len b;
                chunk_bytes := chunk_bytes w + len b;
                parts := parts w |} in
    set_self w ;;
    if chunk_bytes w >=? min_part_size w then
      let buff := join (lines w) in
      request (UploadPart (parts w + 1) buff) ;;
      set_self {| min_part_size := min_part_size w;
                  lines := [];
                  total_size := total_size w;
                  chunk_bytes := 0;
                  parts := parts w + 1 |}
    else ret tt
  end.

(** [S3OpenWrite.close] *)
Definition close : M unit :=
  w <- get_self ;;
  let buff := join (lines w) in
  (if truthy buff then request (UploadPart (parts w + 1) buff)
   else ret tt) ;;
  if total_size w =? 0 then request CancelUpload
  else request CompleteUpload.

(** [S3OpenWrite._termination_error] *)
Definition _termination_error : M unit :=
  request CancelUpload.

(** [S3OpenWrite.__exit__(type, value, traceback)]: [type] is the
    exception that left the [with] block, if any.  The value returned is
    [False] on the first path and [None] on the second, both false. *)
Definition __exit__ (type : option exn) : M bool :=
  match type with
  | Some _ => _termination_error ;; ret false
  | None =>
      try_except (close ;; ret false)
                 (fun e => _termination_error ;; raise e)
  end.

(** The [with] statement around a block that left with [type]: an
    exception raised by [__exit__] propagates; otherwise the exception
    of the block is re-raised unless [__exit__] returned a true value. *)
Definition leave_scope (type : option exn) : M unit :=
  suppress <- __exit__ type ;;
  match type with
  | Some e => if suppress : bool then ret tt else raise e
  | None => ret tt
  end.

(** What the block of a [with smart_open(...) as fout:] does with the
    writer: it writes, and it may raise an error of its own. *)
Inductive action :=
| Write (b : pyobj)
| Fail (e : exn).

Definition perform (a : action) : M unit :=
  match a with
  | Write b => write b
  | Fail e => raise e
  end.

(** Statements run in sequence, up to the first that raises. *)
Fixpoint block (body : list action) : M unit :=
  match body with
  | [] => ret tt
  | a :: rest => perform a ;; block rest
  end.

(** [with S3OpenWrite(..., min_part_size) as fout: body] *)
Definition scoped_session (min_part_size : Z) (body : list action) : M unit :=
  __init__ min_part_size ;;
  fun st =>
    match block body st with
    | (Ok _, st') => leave_scope None st'
    | (Raise e, st') => leave_scope (Some e) st'
    end.

(** [fout = S3OpenWrite(...); fout.write(b1); ...; fout.close()] *)
Definition plain_session (min_part_size : Z) (payloads : list pyobj) : M unit :=
  __init__ min_part_size ;;
  block (map Write payloads) ;;
  close.

(** A backend that has received nothing yet, and a session on it. *)
Definition fresh (script : list (option exn)) : session :=
  {| self := new_writer 0;
     s3 := {| trace := []; script := script |} |}.

(** The parts the backend received, as [(part_num, data)] in the order
    of the requests. *)
Fixpoint uploaded (tr : list call) : list (Z * bytes) :=
  match tr with
  | [] => []
  | UploadPart n d :: r => (n, d) :: uploaded r
  | _ :: r => uploaded r
  end.

Definition is_cancel (c : call) : bool :=
  match c with CancelUpload => true | _ => false end.

Definition is_complete (c : call) : bool :=
  match c with CompleteUpload => true | _ => false end.

(** How many requests of a kind a trace holds. *)
Definition count (p : call -> bool) (tr : list call) : nat :=
  length (filter p tr).

(** The payload bytes [write] accepts from an object. *)
Definition payload (b : pyobj) : bytes :=
  match b with
  | PyBytes b | PyText b => b
  | PyOther => []
  end.

(** The requests a computation added to the trace of [st]. *)
Definition issued (st st' : session) : list call :=
  skipn (length (trace (s3 st))) (trace (s3 st')).

(** What holds of a writer and its backend between two calls that
    returned: [written] is everything accepted by [write] so far. *)
Record consistent (written : bytes) (st : session) : Prop := {
  parts_numbered :
    map fst (uploaded (trace (s3 st)))
    = map Z.of_nat (seq 1 (length (uploaded (trace (s3 st)))));
  parts_counted :
    parts (self st) = len (uploaded (trace (s3 st)));
  parts_data :
    concat (map snd (uploaded (trace (s3 st)))) ++ join (lines (self st))
    = written }.

(** The states a writer goes through: it is created, and objects are
    handed to [write] one after the other; the caller may go on after a
    [write] that raised.  [ps] are the objects handed over so far. *)
Inductive reachable : list pyobj -> session -> Prop :=
| reach_init T script :
    fst (__init__ T (fresh script)) = Ok tt ->
    reachable [] (snd (__init__ T (fresh script)))
| reach_write ps b st :
    reachable ps st ->
    reachable (ps ++ [b]) (snd (write b st)).

(** What leaves [__exit__] when an exception [original] set off the
    cancellation: the exception itself when the cancellation returned,
    and the error of the cancellation when it raised. *)
Definition propagated (original : exn) (cancel : result unit) : result unit :=
  match cancel with
  | Ok _ => Raise original
  | Raise e' => Raise e'
  end.

End Writer.

(** ** Parallel bucket iterator: [s3_iter_bucket] *)

Module BucketIter.

(** A key of the bucket: its name and what [get_contents_as_string]
    returns for it. *)
Record Key := {
  name : string;
  contents : bytes }.

(** What the iterator does to the pool and to the keys. *)
Inductive event :=
| PoolCreate (processes : positive)
| Fetch (key_name : string)
| KeyClose (key_name : string)
| PoolTerminate.

(** *** The process pool

    [multiprocessing.pool.Pool(processes=workers)] runs at most
    [workers] tasks at a time and takes them from the iterable in order;
    [imap_unordered] hands out each result once, in the order in which
    the tasks complete.  [running] are the tasks in the hands of a
    worker, [queue] those still waiting, and [picks] decides which
    running task completes next: any completion order that [workers]
    processes can produce is the order of some [picks]. *)
Record pool := {
  running : list Key;
  queue : list Key;
  picks : list nat }.

(** [s3_iter_bucket_process_key(key)], run by a worker. *)
Definition s3_iter_bucket_process_key (key : Key) : Key * bytes :=
  (key, contents key).

Fixpoint remove_nth {A} (i : nat) (l : list A) : list A :=
  match l, i with
  | [], _ => []
  | _ :: r, O => r
  | x :: r, S j => x :: remove_nth j r
  end.

(** [pool.imap_unordered(s3_iter_bucket_process_key, keys)]: the first
    [workers] tasks start at once. *)
Definition imap_unordered (workers : positive) (picks : list nat)
           (keys : list Key) : pool * list event :=
  let w := Pos.to_nat workers in
  ({| running := firstn w keys; queue := skipn w keys; picks := picks |},
   map (fun k => Fetch (name k)) (firstn w keys)).

(** The next result of the pool's iterator, [None] when every task has
    been handed out; the worker that becomes free starts the next
    waiting task. *)
Definition pool_next (p : pool)
  : option (Key * bytes) * pool * list event :=
  match running p with
  | [] => (None, p, [])
  | k0 :: _ =>
      let i := (hd O (picks p) mod length (running p))%nat in
      let k := nth i (running p) k0 in
      let rest := remove_nth i (running p) in
      match queue p with
      | [] =>
          (Some (s3_iter_bucket_process_key k),
           {| running := rest; queue := []; picks := tl (picks p) |}, [])
      | q :: qs =>
          (Some (s3_iter_bucket_process_key k),
           {| running := rest ++ [q]; queue := qs; picks := tl (picks p) |},
           [Fetch (name q)])
      end
  end.

(** *** The generator *)

(** The arguments of [s3_iter_bucket]; [bucket.list(prefix=prefix)] are
    the keys of the bucket whose name starts with [prefix].  A pool
    needs at least one process, so [workers] is positive. *)
Record args := {
  bucket : list Key;
  prefix : string;
  accept_key : string -> bool;
  key_limit : option Z;
  workers : positive;
  completion : list nat }.

Definition bucket_list (bucket : list Key) (prefix : string) : list Key :=
  filter (fun k => String.prefix prefix (name k)) bucket.

(** [keys = (key for key in bucket.list(prefix=prefix) if accept_key(key.name))] *)
Definition keys (a : args) : list Key :=
  filter (fun k => accept_key a (name k)) (bucket_list (bucket a) (prefix a)).

(** The generator object: not started, suspended at the [yield] inside
    the loop with its local variables, or finished. *)
Inductive gen :=
| Created
| Suspended (key_no : Z) (key : Key) (content : bytes) (total_size : Z)
            (p : pool)
| Finished.

Definition step : Type := option (string * bytes) * gen * list event.

(** The head of the [for] loop: take the next result and yield it, or
    leave the loop and run [pool.terminate()]. *)
Definition loop_head (key_no total_size : Z) (p : pool) : step :=
  match pool_next p with
  | (None, _, ev) => (None, Finished, ev ++ [PoolTerminate])
  | (Some (key, content), p', ev) =>
      (Some (name key, content),
       Suspended key_no key content total_size p', ev)
  end.

(** [next(g)]: run the body up to the next [yield] ([Some]) or to its
    end ([None], [StopIteration]). *)
Definition next (a : args) (g : gen) : step :=
  match g with
  | Created =>
      let (p, ev) := imap_unordered (workers a) (completion a) (keys a) in
      let '(r, g', ev') := loop_head 0 0 p in
      (r, g', PoolCreate (workers a) :: ev ++ ev')
  | Suspended key_no key content total_size p =>
      let total_size := total_size + len content in
      let stop := match key_limit a with
                  | Some l => key_no + 1 >=? l
                  | None => false
                  end in
      if stop then (None, Finished, [KeyClose (name key); PoolTerminate])
      else
        let '(r, g', ev) := loop_head (key_no + 1) total_size p in
        (r, g', KeyClose (name key) :: ev)
  | Finished => (None, Finished, [])
  end.

(** [g.close()], also run when a suspended generator is dropped:
    [GeneratorExit] is raised at the [yield]; the body has no [try], so
    nothing more of it runs. *)
Definition close (g : gen) : gen * list event := (Finished, []).

(** A consumer that takes up to [n] results and then drops the
    generator. *)
Fixpoint take (a : args) (n : nat) (g : gen)
  : list (string * bytes) * list event :=
  match n with
  | O => ([], snd (close g))
  | S m =>
      match next a g with
      | (Some r, g', ev) =>
          let (rs, ev') := take a m g' in (r :: rs, ev ++ ev')
      | (None, _, ev) => ([], ev)
      end
  end.

(** [for name, content in s3_iter_bucket(...)] run to the end: [next]
    until [StopIteration].  [fuel] bounds the number of calls; [None]
    means the bound was too small. *)
Fixpoint for_loop (a : args) (fuel : nat) (g : gen)
  : option (list (string * bytes) * list event) :=
  match fuel with
  | O => None
  | S f =>
      match next a g with
      | (Some r, g', ev) =>
          match for_loop a f g' with
          | Some (rs, ev') => Some (r :: rs, ev ++ ev')
          | None => None
          end
      | (None, _, ev) => Some ([], ev)
      end
  end.

(** The whole iteration: there is one call of [next] per key handed to
    the pool, and one more. *)
Definition s3_iter_bucket (a : args)
  : option (list (string * bytes) * list event) :=
  for_loop a (S (length (keys a))) Created.

Definition is_terminate (e : event) : bool :=
  match e with PoolTerminate => true | _ => false end.


(** The tasks the pool still holds. *)
Definition size (p : pool) : nat := (length (running p) + length (queue p))%nat.

(** Tasks wait only while every worker is busy. *)
Definition pool_ok (p : pool) : Prop := running p = [] -> queue p = [].





(** A bucket of two keys, listed whole. *)
Definition two_keys : list Key :=
  [ {| name := "a"; contents := [x61] |};
    {| name := "b"; contents := [x62] |} ].

Definition two_keys_args (key_limit : option Z) (workers : positive) : args :=
  {| bucket := two_keys;
     prefix := "";
     accept_key := fun _ => true;
     key_limit := key_limit;
     workers := workers;
     completion := [] |}.

(** What the consumer gets for a key. *)
Definition result_of (k : Key) : string * bytes := (name k, contents k).

(** The names of the keys closed, in order. *)
Definition closed (ev : list event) : list string :=
  flat_map (fun e => match e with KeyClose n => [n] | _ => [] end) ev.

End BucketIter.

(** ** Object-store reader: [S3OpenRead.read] *)

Module Reader.

(** The [boto.s3.key.Key] behind [self.read_key]: the bytes of the
    object, and the offset of the open response, [None] while the key is
    closed. *)
Record ReadKey := {
  data : bytes;
  resp : option nat }.

(** Where the next read starts: [open_read] opens a closed key at the
    start of the object. *)
Definition cursor (k : ReadKey) : nat :=
  match resp k with Some pos => pos | None => O end.

(** [Key.read(size)] of the client: [size == 0] reads to the end of the
    response, another size reads at most that many bytes; a read that
    returns nothing closes the key. *)
Definition key_read (size : Z) (k : ReadKey) : bytes * ReadKey :=
  let rest := skipn (cursor k) (data k) in
  let out := if size =? 0 then rest else firstn (Z.to_nat size) rest in
  (out,
   {| data := data k;
      resp := if truthy out then Some (cursor k + length out)%nat
              else None |}).

(** [S3OpenRead.read(size=None)] *)
Definition read (size : option Z) (read_key : ReadKey) : bytes * ReadKey :=
  let size :=
    match size with
    | None => 0
    | Some n => if (n =? 0) || (n <? 0) then 0 else n
    end in
  key_read size read_key.

(** [S3OpenRead.seek(offset, whence=0)] *)
Definition seek (offset whence : Z) (read_key : ReadKey) : result ReadKey :=
  if negb (whence =? 0) || negb (offset =? 0) then Raise NotImplementedError
  else Ok {| data := data read_key; resp := None |}.

(** The sizes [read] takes for "the rest": [None], zero and the
    negative numbers. *)
Definition reads_rest (size : option Z) : Prop :=
  match size with
  | None => True
  | Some n => n <= 0
  end.

End Reader.

(** ** Local files: [file_smart_open] *)

Module Files.

Local Open Scope string_scope.

(** [s.rfind(c)] for a one-character [c]: the highest index holding
    [c], and [-1] when there is none. *)
Fixpoint rfind (c : ascii) (s : string) : Z :=
  match s with
  | EmptyString => -1
  | String x r =>
      let i := rfind c r in
      if i >=? 0 then i + 1
      else if Ascii.eqb x c then 0 else -1
  end.

(** [s[:n]] and [s[n:]] for [0 <= n]. *)
Fixpoint take (n : nat) (s : string) : string :=
  match n, s with
  | S m, String x r => String x (take m r)
  | _, _ => EmptyString
  end.

Fixpoint drop (n : nat) (s : string) : string :=
  match n, s with
  | S m, String _ r => drop m r
  | _, _ => s
  end.

(** [genericpath._splitext(p, sep, altsep, extsep)]: the extension
    starts at the last [extsep] of the last component, unless only
    [extsep] characters come before it in that component. *)
Definition _splitext (p : string) (sep : ascii) (altsep : option ascii)
           (extsep : ascii) : string * string :=
  let sepIndex := rfind sep p in
  let sepIndex := match altsep with
                  | Some a => Z.max sepIndex (rfind a p)
                  | None => sepIndex
                  end in
  let dotIndex := rfind extsep p in
  if dotIndex >? sepIndex then
    let filename := take (Z.to_nat (dotIndex - (sepIndex + 1)))
                         (drop (Z.to_nat (sepIndex + 1)) p) in
    if negb (Uri.all_chars (fun x => Ascii.eqb x extsep) filename)
    then (take (Z.to_nat dotIndex) p, drop (Z.to_nat dotIndex) p)
    else (p, EmptyString)
  else (p, EmptyString).

(** [os.path.splitext]: [posixpath] splits at [/], [ntpath] at [\]
    and at [/]. *)
Definition splitext (nt : bool) (p : string) : string * string :=
  if nt then _splitext p "\" (Some "/"%char) "."
  else _splitext p "/" None ".".

(** The classes [file_smart_open] opens a file with. *)
Inductive opener :=
| BZ2File
| GzipFile
| builtin_open.

(** The file object returned: the class, wrapped by [make_closing]
    where it lacks the methods of a context manager, and the arguments
    it was called with. *)
Record file_object := {
  opened_by : opener;
  fname : string;
  fmode : string }.

(** [file_smart_open(fname, mode)] *)
Definition file_smart_open (nt : bool) (fname mode : string) : file_object :=
  let ext := snd (splitext nt fname) in
  if ext =? ".bz2" then
    {| opened_by := BZ2File; fname := fname; fmode := mode |}
  else if ext =? ".gz" then
    {| opened_by := GzipFile; fname := fname; fmode := mode |}
  else {| opened_by := builtin_open; fname := fname; fmode := mode |}.

(** The last component of a path has a character that is no dot. *)
Definition named (nt : bool) (stem : string) : Prop :=
  let sepIndex :=
    if nt then Z.max (rfind "\" stem) (rfind "/" stem) else rfind "/" stem in
  Uri.all_chars (fun x => Ascii.eqb x ".") (drop (Z.to_nat (sepIndex + 1)) stem)
  = false.

(** The extensions [file_smart_open] knows. *)
Definition compressed (ext : string) : option opener :=
  if ext =? ".bz2" then Some BZ2File
  else if ext =? ".gz" then Some GzipFile
  else None.

End Files.

(** ** The entry point: [smart_open] *)

Module Open.

Import Uri.
Local Open Scope string_scope.

(** What a call can end in besides the exceptions of the module: the
    [AttributeError] of reading an attribute that [ParseUri] did not
    set. *)
Inductive failure :=
| Raised (e : exn)
| AttributeError (attribute : string).

(** The object store behind [boto.connect_s3]:
    [get_bucket(bucket).lookup(key)] gives the bytes of the key, [None]
    for a key that does not exist, or raises; [get_bucket(bucket)] alone
    returns or raises; [chunking] cuts the bytes of a key into the
    chunks that iterating over it delivers; [answers] decides the fate
    of the requests of an upload. *)
Record s3_env := {
  lookup : string -> string -> result (option bytes);
  get_bucket : string -> result unit;
  chunking : bytes -> list bytes;
  answers : list (option exn) }.

Definition scheme_of (u : ParsedUri) : string :=
  match u with
  | PathUri scheme _ => scheme
  | S3Uri scheme _ _ _ _ => scheme
  end.

(** [S3OpenRead]: the descriptor and the key opened for [read]. *)
Record S3OpenRead := {
  s3_uri : ParsedUri;
  read_key : Reader.ReadKey }.

(** [get_bucket(bucket_id).lookup(key_id)] on the attributes of a
    descriptor, and [None] turned into [KeyError]. *)
Definition lookup_key (env : s3_env) (parsed_uri : ParsedUri)
  : failure + bytes :=
  match parsed_uri with
  | PathUri _ _ => inl (AttributeError "access_id")
  | S3Uri _ bucket_id key_id _ _ =>
      match lookup env bucket_id key_id with
      | Raise e => inl (Raised e)
      | Ok None => inl (Raised KeyError)
      | Ok (Some content) => inr content
      end
  end.

(** [S3OpenRead.__init__(parsed_uri)] *)
Definition S3OpenRead_init (env : s3_env) (parsed_uri : ParsedUri)
  : failure + S3OpenRead :=
  if negb ((scheme_of parsed_uri =? "s3") || (scheme_of parsed_uri =? "s3n"))
  then inl (Raised TypeError)
  else
    match lookup_key env parsed_uri with
    | inl f => inl f
    | inr content =>
        inr {| s3_uri := parsed_uri;
               read_key := {| Reader.data := content;
                              Reader.resp := None |} |}
    end.



Definition S3OpenRead_seek (offset whence : Z) (self : S3OpenRead)
  : result S3OpenRead :=
  match Reader.seek offset whence (read_key self) with
  | Raise e => Raise e
  | Ok k => Ok {| s3_uri := s3_uri self; read_key := k |}
  end.

(** [HdfsOpenRead]: the descriptor. *)
Record HdfsOpenRead := { hdfs_uri : ParsedUri }.

(** [HdfsOpenRead.__init__(parsed_uri)]: [("hdfs")] is a string, so
    [scheme not in ("hdfs")] asks whether the scheme occurs in it. *)
Definition HdfsOpenRead_init (parsed_uri : ParsedUri) : result HdfsOpenRead :=
  if negb (contains (scheme_of parsed_uri) "hdfs") then Raise TypeError
  else Ok {| hdfs_uri := parsed_uri |}.


(** [HdfsOpenRead.read] and [HdfsOpenRead.seek] *)
Definition HdfsOpenRead_read (size : option Z) (self : HdfsOpenRead)
  : result bytes := Raise NotImplementedError.

Definition HdfsOpenRead_seek (offset : Z) (whence : option Z)
           (self : HdfsOpenRead) : result unit := Raise NotImplementedError.

(** What [smart_open] returns. *)
Inductive stream :=
| LocalFile (f : Files.file_object)
| S3Reader (r : S3OpenRead)
| HdfsReader (r : HdfsOpenRead)
| S3Writer (bucket_id key_id : string) (w : Writer.session).

Definition lift {A} (r : result A) (k : A -> failure + stream)
  : failure + stream :=
  match r with
  | Raise e => inl (Raised e)
  | Ok a => k a
  end.

(** [smart_open(uri, mode)] *)
Definition smart_open (env : s3_env) (nt : bool) (uri mode : string)
  : failure + stream :=
  lift (ParseUri nt uri "file") (fun parsed_uri =>
  let scheme := scheme_of parsed_uri in
  if scheme =? "file" then
    match parsed_uri with
    | PathUri _ uri_path => inr (LocalFile (Files.file_smart_open nt uri_path mode))
    | S3Uri _ _ _ _ _ => inl (AttributeError "uri_path")
    end
  else if (mode =? "r") || (mode =? "rb") then
    if (scheme =? "s3") || (scheme =? "s3n") then
      match S3OpenRead_init env parsed_uri with
      | inl f => inl f
      | inr r => inr (S3Reader r)
      end
    else if scheme =? "hdfs" then
      lift (HdfsOpenRead_init parsed_uri) (fun r => inr (HdfsReader r))
    else inl (Raised NotImplementedError)
  else if (mode =? "w") || (mode =? "wb") then
    if (scheme =? "s3") || (scheme =? "s3n") then
      match parsed_uri with
      | PathUri _ _ => inl (AttributeError "access_id")
      | S3Uri _ bucket_id key_id _ _ =>
          lift (get_bucket env bucket_id) (fun _ =>
          match Writer.__init__ Writer.S3_MIN_PART_SIZE
                                (Writer.fresh (answers env)) with
          | (Raise e, _) => inl (Raised e)
          | (Ok _, w) => inr (S3Writer bucket_id key_id w)
          end)
      end
    else inl (Raised NotImplementedError)
  else inl (Raised NotImplementedError)).

(** The modes [smart_open] reads and writes with. *)
Definition read_mode (mode : string) : bool := (mode =? "r") || (mode =? "rb").
Definition write_mode (mode : string) : bool := (mode =? "w") || (mode =? "wb").


End Open.

(** * Properties *)

(** ** The line-streaming reader *)

Section LineReaderFacts.

Import LineReader.

Lemma index_of_cut c s i :
  index_of c s = Some i ->
  exists pre, firstn (S i) s = pre ++ [c] /\ index_of c pre = None.
Proof.
  revert i; induction s as [|x r IH]; simpl; intros i H; [discriminate|].
  destruct (Byte.eqb x c) eqn:E.
  - injection H as <-. apply Byte.byte_dec_bl in E. subst x.
    exists []. split; reflexivity.
  - destruct (index_of c r) as [j|] eqn:Ej; [|discriminate].
    injection H as <-. destruct (IH j eq_refl) as (pre & Hpre & Hno).
    exists (x :: pre). split.
    + change (firstn (S (S j)) (x :: r)) with (x :: firstn (S j) r).
      rewrite Hpre. reflexivity.
    + simpl. rewrite E, Hno. reflexivity.
Qed.

Lemma ends_with_newline_snoc pre :
  ends_with_newline (pre ++ [newline]) = true.
Proof.
  unfold ends_with_newline. rewrite rev_app_distr. reflexivity.
Qed.

(** One pass of the inner loop from offset [start]: the lines yielded
    and the buffer kept make up the buffer from [start] on, every line
    ends in a newline, and the buffer kept has none. *)
Lemma scan_spec buf start :
  0 <= start <= len buf ->
  concat (fst (scan buf start)) ++ snd (scan buf start)
    = skipn (Z.to_nat start) buf /\
  Forall (fun l => ends_with_newline l = true) (fst (scan buf start)) /\
  index_of newline (snd (scan buf start)) = None.
Proof.
  funelim (scan buf start); intros Hr; simpl.
  - clear Heqcall H. apply Z.eqb_eq in e. unfold find in e. unfold slice_from.
    destruct (index_of newline (skipn (Z.to_nat start) buf)) eqn:E; [lia|].
    auto.
  - clear Heqcall H0. apply Z.eqb_neq in Hnz.
    destruct (@find_bounds buf start _ eq_refl Hnz) as [Hlt Hle].
    set (e := find buf newline start + 1) in *.
    destruct H as (Hc & Hf & Hn); [lia|].
    assert (He : exists i, index_of newline (skipn (Z.to_nat start) buf) = Some i
                           /\ e = start + Z.of_nat i + 1).
    { unfold e, find in *.
      destruct (index_of newline (skipn (Z.to_nat start) buf)) as [i|];
        [eauto | lia]. }
    destruct He as (i & Hi & Hei).
    destruct (index_of_cut _ _ Hi) as (pre & Hpre & _).
    assert (Hs : slice buf start e = firstn (S i) (skipn (Z.to_nat start) buf)).
    { unfold slice. f_equal. lia. }
    assert (Hk : skipn (Z.to_nat e) buf
                 = skipn (S i) (skipn (Z.to_nat start) buf)).
    { rewrite skipn_skipn. f_equal. lia. }
    repeat split.
    + rewrite <- app_assoc, Hc, Hs, Hk. apply firstn_skipn.
    + constructor; [|exact Hf]. rewrite Hs, Hpre.
      apply ends_with_newline_snoc.
    + exact Hn.
Qed.

Lemma Forall_removelast_app {A} (P : A -> Prop) l1 l2 :
  Forall P l1 -> Forall P (removelast l2) -> Forall P (removelast (l1 ++ l2)).
Proof.
  intros H1 H2. destruct l2 as [|x l2].
  - rewrite app_nil_r. clear H2. induction H1 as [|y l Hy Hl IH]; [constructor|].
    destruct l; [constructor|]. simpl in *. constructor; assumption.
  - rewrite removelast_app by discriminate. apply Forall_app. split; assumption.
Qed.

Lemma iter_chunks_concat buf chunks :
  concat (iter_chunks buf chunks) = buf ++ concat chunks.
Proof.
  revert buf; induction chunks as [|chunk rest IH]; intros buf; simpl.
  - destruct buf; simpl; rewrite ?app_nil_r; reflexivity.
  - rewrite concat_app, IH, app_assoc.
    destruct (@scan_spec (buf ++ chunk) 0) as (Hc & _); [unfold len; lia|].
    rewrite Hc. simpl. rewrite app_assoc. reflexivity.
Qed.

Lemma iter_chunks_newlines buf chunks :
  Forall (fun l => ends_with_newline l = true)
         (removelast (iter_chunks buf chunks)).
Proof.
  revert buf; induction chunks as [|chunk rest IH]; intros buf; simpl.
  - destruct (truthy buf); constructor.
  - apply Forall_removelast_app; [|apply IH].
    apply (@scan_spec (buf ++ chunk) 0). unfold len; lia.
Qed.

Lemma iter_chunks_empty chunks :
  concat chunks = [] -> iter_chunks [] chunks = [].
Proof.
  induction chunks as [|chunk rest IH]; simpl; intros H; [reflexivity|].
  apply app_eq_nil in H. destruct H as [-> H]. simpl.
  simp scan. simpl. auto.
Qed.

(** C2. Whatever the chunks the key delivers, the lines [s3_iter_lines]
    yields concatenate to the concatenation of the chunks, every line
    yielded but possibly the last ends in a newline, and chunks that
    concatenate to the empty byte string yield no line at all. *)
Theorem s3_iter_lines_reassembles (chunks : list bytes) :
  concat (s3_iter_lines chunks) = concat chunks /\
  Forall (fun l => ends_with_newline l = true)
         (removelast (s3_iter_lines chunks)) /\
  (concat chunks = [] -> s3_iter_lines chunks = []).
Proof.
  unfold s3_iter_lines. split; [|split].
  - apply iter_chunks_concat.
  - apply iter_chunks_newlines.
  - apply iter_chunks_empty.
Qed.

Lemma s3_iter_lines_reassembles_witness :
  concat (s3_iter_lines [[]; []]) = concat [[]; []] /\
  s3_iter_lines [[]; []] = [].
Proof.
  destruct (s3_iter_lines_reassembles [[]; []]) as (H1 & _ & H3).
  split; [exact H1 | apply H3; reflexivity].
Defined.

End LineReaderFacts.

(** ** The chunked upload writer *)

Section WriterFacts.

Import Writer.
Local Open Scope writer_scope.

Lemma skipn_length_app {A} (l k : list A) : skipn (length l) (l ++ k) = k.
Proof. induction l; simpl; auto. Qed.

Lemma uploaded_app tr1 tr2 : uploaded (tr1 ++ tr2) = uploaded tr1 ++ uploaded tr2.
Proof.
  induction tr1 as [|c tr1 IH]; simpl; [reflexivity|].
  destruct c; simpl; rewrite IH; reflexivity.
Qed.

Lemma count_app p tr1 tr2 : count p (tr1 ++ tr2) = (count p tr1 + count p tr2)%nat.
Proof. unfold count. rewrite filter_app, length_app. reflexivity. Qed.

(** A request is recorded whether it returns or raises, and leaves the
    writer alone. *)
Lemma request_inv c st r st' :
  request c st = (r, st') ->
  trace (s3 st') = trace (s3 st) ++ [c] /\
  script (s3 st') = tl (script (s3 st)) /\
  self st' = self st /\
  r = match script (s3 st) with Some e :: _ => Raise e | _ => Ok tt end.
Proof.
  unfold request. intros H.
  destruct (script (s3 st)) as [|[e|] sc]; inversion H; subst; simpl; auto.
Qed.

Lemma seq_snoc n : seq 1 (S n) = seq 1 n ++ [S n].
Proof. rewrite seq_S. reflexivity. Qed.

Lemma consistent_init T script st :
  __init__ T (fresh script) = (Ok tt, st) -> consistent [] st.
Proof.
  unfold __init__, bind, set_self. simpl. intros H.
  destruct (script) as [|[e|] sc]; inversion H; subst; simpl;
    constructor; reflexivity.
Qed.

Lemma consistent_upload written st st' :
  consistent written st ->
  trace (s3 st') = trace (s3 st)
                   ++ [UploadPart (parts (self st) + 1) (join (lines (self st)))] ->
  consistent written
    {| self := {| min_part_size := min_part_size (self st);
                  lines := [];
                  total_size := total_size (self st);
                  chunk_bytes := 0;
                  parts := parts (self st) + 1 |};
       s3 := s3 st' |}.
Proof.
  intros [Hn Hc Hd] Ht. constructor; simpl; rewrite Ht, uploaded_app; simpl.
  - rewrite length_app. simpl. rewrite Nat.add_1_r, seq_snoc.
    rewrite !map_app, <- Hn. simpl. do 2 f_equal.
    rewrite Hc. unfold len. lia.
  - rewrite Hc. unfold len. rewrite length_app. simpl. lia.
  - rewrite map_app, concat_app. simpl. rewrite !app_nil_r. exact Hd.
Qed.

Lemma consistent_write written b st st' :
  consistent written st ->
  write (PyBytes b) st = (Ok tt, st') ->
  consistent (written ++ b) st'.
Proof.
  intros Hc. unfold write, bind, get_self, set_self, ret. simpl.
  destruct (chunk_bytes (self st) + len b >=? min_part_size (self st)).
  - destruct (request _ _) as [r st1] eqn:Hr.
    apply request_inv in Hr. simpl in Hr. destruct Hr as (Ht & _ & Hs & _).
    destruct r; intros H; inversion H; subst; clear H.
    set (st0 := {| self := {| min_part_size := min_part_size (self st);
                              lines := lines (self st) ++ [b];
                              total_size := total_size (self st) + len b;
                              chunk_bytes := chunk_bytes (self st) + len b;
                              parts := parts (self st) |};
                   s3 := s3 st |}).
    assert (H0 : consistent (written ++ b) st0).
    { destruct Hc as [Hn Hp Hd]. constructor; simpl; auto.
      unfold join. rewrite concat_app. simpl. rewrite app_nil_r, app_assoc.
      unfold join in Hd. rewrite Hd. reflexivity. }
    apply (@consistent_upload _ st0 st1 H0). exact Ht.
  - intros H; inversion H; subst; clear H.
    destruct Hc as [Hn Hp Hd]. constructor; simpl; auto.
    unfold join. rewrite concat_app. simpl. rewrite app_nil_r, app_assoc.
    unfold join in Hd. rewrite Hd. reflexivity.
Qed.

Lemma consistent_block written payloads st st' :
  consistent written st ->
  block (map Write (map PyBytes payloads)) st = (Ok tt, st') ->
  consistent (written ++ concat payloads) st'.
Proof.
  revert written st; induction payloads as [|b rest IH];
    cbn [map block concat]; intros written st Hc.
  - unfold ret. intros H; inversion H; subst. rewrite app_nil_r. exact Hc.
  - unfold bind at 1. change (perform (Write (PyBytes b))) with (write (PyBytes b)).
    destruct (write (PyBytes b) st) as [[[]|e] st1] eqn:Hw;
      [|discriminate].
    intros H. rewrite app_assoc. apply (IH _ st1); [|exact H].
    eapply consistent_write; eassumption.
Qed.

(** The parts on the backend once [close] has returned. *)
Lemma close_uploaded written st st' :
  consistent written st ->
  close st = (Ok tt, st') ->
  map fst (uploaded (trace (s3 st')))
  = map Z.of_nat (seq 1 (length (uploaded (trace (s3 st'))))) /\
  concat (map snd (uploaded (trace (s3 st')))) = written.
Proof.
  intros Hc. unfold close, bind, get_self, ret.
  destruct (truthy (join (lines (self st)))) eqn:Hb.
  - destruct (request (UploadPart _ _) st) as [r st1] eqn:Hr.
    apply request_inv in Hr. destruct Hr as (Ht & _ & Hs & _).
    destruct r; [|discriminate].
    pose proof (@consistent_upload _ st st1 Hc Ht) as [Hn _ Hd].
    simpl in Hn, Hd. rewrite app_nil_r in Hd.
    cbv beta.
    destruct (total_size (self st) =? 0);
      match goal with
      | |- context [request ?c st1] =>
          destruct (request c st1) as [r2 st2] eqn:Hr2
      end;
      apply request_inv in Hr2; destruct Hr2 as (Ht2 & _);
      destruct r2; intros H; inversion H; subst;
      rewrite Ht2, uploaded_app; simpl; rewrite app_nil_r; auto.
  - destruct Hc as [Hn _ Hd].
    assert (join (lines (self st)) = []) as Hj
      by (destruct (join (lines (self st))); [reflexivity|discriminate]).
    rewrite Hj, app_nil_r in Hd.
    destruct (total_size (self st) =? 0);
      match goal with
      | |- context [request ?c st] =>
          destruct (request c st) as [r2 st2] eqn:Hr2
      end;
      apply request_inv in Hr2; destruct Hr2 as (Ht2 & _);
      destruct r2; intros H; inversion H; subst;
      rewrite Ht2, uploaded_app; simpl; rewrite app_nil_r; auto.
Qed.

(** On a backend whose requests all return, the calls of a session
    that writes byte strings all return. *)
Lemma write_returns b st :
  script (s3 st) = [] ->
  fst (write (PyBytes b) st) = Ok tt /\ script (s3 (snd (write (PyBytes b) st))) = [].
Proof.
  intros Hs. unfold write, bind, get_self, set_self, ret, request.
  cbn [self s3 lines total_size chunk_bytes min_part_size parts].
  destruct (_ >=? _); cbn [s3 script]; rewrite ?Hs; simpl; auto.
Qed.

Lemma block_returns payloads st :
  script (s3 st) = [] ->
  fst (block (map Write (map PyBytes payloads)) st) = Ok tt /\
  script (s3 (snd (block (map Write (map PyBytes payloads)) st))) = [].
Proof.
  revert st; induction payloads as [|b rest IH]; cbn [map block];
    intros st Hs; [auto|].
  change (perform (Write (PyBytes b))) with (write (PyBytes b)).
  unfold bind.
  destruct (write_returns b st Hs) as [Hr Hs'].
  destruct (write (PyBytes b) st) as [[[]|e] st1]; [|discriminate].
  apply IH. exact Hs'.
Qed.

Lemma plain_session_returns T payloads :
  fst (plain_session T (map PyBytes payloads) (fresh [])) = Ok tt.
Proof.
  unfold plain_session. unfold bind at 1.
  destruct (__init__ T (fresh [])) as [r st0] eqn:Hi.
  assert (H0 : r = Ok tt /\ script (s3 st0) = [])
    by (unfold __init__, bind, set_self, request in Hi; simpl in Hi;
        inversion Hi; auto).
  destruct H0 as [-> Hs0]. unfold bind at 1.
  destruct (block_returns payloads st0 Hs0) as [Hb Hs1].
  destruct (block _ st0) as [[[]|e] st1]; [|discriminate].
  cbn [snd] in Hs1.
  unfold close, bind, get_self, ret, request.
  destruct (truthy _); destruct (total_size (self st1) =? 0);
    rewrite ?Hs1; simpl; rewrite ?Hs1; reflexivity.
Qed.

(** C1. When a writer is created, byte strings are written to it in any
    number of [write] calls and it is closed, all calls returning, the
    parts the backend received carry the numbers 1, 2, 3, ... in the
    order of the requests, and their data, concatenated in that order,
    is the concatenation of the byte strings written. *)
Theorem parts_reassemble_written
        (T : Z) (payloads : list bytes) (script : list (option exn))
        (st' : session) :
  plain_session T (map PyBytes payloads) (fresh script) = (Ok tt, st') ->
  let ps := uploaded (trace (s3 st')) in
  map fst ps = map Z.of_nat (seq 1 (length ps)) /\
  concat (map snd ps) = concat payloads.
Proof.
  unfold plain_session. unfold bind at 1.
  destruct (__init__ T (fresh script)) as [[[]|e] st0] eqn:Hi; [|discriminate].
  unfold bind at 1.
  destruct (block _ st0) as [[[]|e] st1] eqn:Hb; [|discriminate].
  intros Hc. apply consistent_init in Hi.
  pose proof (consistent_block _ Hi Hb) as H1. simpl in H1.
  apply (close_uploaded H1 Hc).
Qed.

Lemma parts_reassemble_written_witness :
  let payloads := [[x61]; [x62]; [x63; x64; x65]; []; [x66]] in
  let st' := snd (plain_session 2 (map PyBytes payloads) (fresh [])) in
  plain_session 2 (map PyBytes payloads) (fresh []) = (Ok tt, st') /\
  map fst (uploaded (trace (s3 st'))) = [1; 2; 3] /\
  concat (map snd (uploaded (trace (s3 st')))) = concat payloads.
Proof.
  intros payloads st'.
  assert (H : plain_session 2 (map PyBytes payloads) (fresh []) = (Ok tt, st'))
    by (vm_compute; reflexivity).
  split; [exact H|].
  exact (parts_reassemble_written 2 payloads [] H).
Defined.

Lemma init_inv T script r st :
  __init__ T (fresh script) = (r, st) ->
  self st = new_writer T /\ trace (s3 st) = [InitiateUpload].
Proof.
  unfold __init__, bind, set_self. simpl.
  destruct script as [|[e|] sc]; intros H; inversion H; subst; auto.
Qed.

(** C5 as stated fails: with a threshold of one byte, one [write] of
    three bytes sends a single part before [close], not two. *)
Lemma single_write_3T_counterexample :
  let T := 1 in
  let b := [x61; x62; x63] in
  let st1 := snd ((__init__ T ;; write (PyBytes b)) (fresh [])) in
  0 < T /\ len b = 3 * T /\
  ~ (2 <= length (uploaded (trace (s3 st1))))%nat.
Proof.
  vm_compute. repeat split; try discriminate.
  intros H. apply Nat.leb_le in H. discriminate.
Qed.

(** C5, amended. For a threshold [T > 0], one [write] of [3 * T] bytes
    that returns sends the whole payload as part 1, and the [close] that
    follows sends no further part. *)
Theorem single_write_3T_one_part
        (T : Z) (b : bytes) (script : list (option exn)) (st1 : session) :
  0 < T -> len b = 3 * T ->
  (__init__ T ;; write (PyBytes b)) (fresh script) = (Ok tt, st1) ->
  uploaded (trace (s3 st1)) = [(1, b)] /\
  uploaded (issued st1 (snd (close st1))) = [].
Proof.
  intros HT Hb. unfold bind at 1.
  destruct (__init__ T (fresh script)) as [[[]|e] st0] eqn:Hi; [|discriminate].
  apply init_inv in Hi. destruct Hi as [Hw Ht0].
  unfold write, bind, get_self, set_self, ret. simpl.
  rewrite Hw. simpl.
  replace (len b >=? T) with true by (symmetry; apply Z.geb_le; lia).
  rewrite app_nil_r.
  destruct (request _ _) as [r st2] eqn:Hr.
  apply request_inv in Hr. simpl in Hr. destruct Hr as (Ht & _ & _ & _).
  destruct r; intros H; inversion H; subst; clear H. simpl.
  rewrite Ht, Ht0. split; [reflexivity|].
  unfold close, bind, get_self, ret, issued. simpl.
  destruct (len b =? 0);
    match goal with
    | |- context [request ?c ?s] => destruct (request c s) as [r3 st3] eqn:Hr3
    end;
    apply request_inv in Hr3; simpl in Hr3; destruct Hr3 as (Ht3 & _);
    destruct r3; simpl; rewrite Ht3, skipn_length_app; reflexivity.
Qed.

Lemma single_write_3T_one_part_witness :
  let b := [x61; x62; x63; x64; x65; x66] in
  let st1 := snd ((__init__ 2 ;; write (PyBytes b)) (fresh [])) in
  uploaded (trace (s3 st1)) = [(1, b)] /\
  uploaded (issued st1 (snd (close st1))) = [].
Proof.
  intros b st1.
  apply (@single_write_3T_one_part 2 b [] st1);
    [lia | reflexivity | vm_compute; reflexivity].
Defined.

Lemma len_app {A} (x y : list A) : len (x ++ y) = len x + len y.
Proof. unfold len. rewrite length_app. lia. Qed.

Lemma len_nonneg {A} (x : list A) : 0 <= len x.
Proof. unfold len. lia. Qed.

(** One [write], whether it returns or raises, adds the length of what
    it accepted to the running total, and the pending lines grow by no
    more than that. *)
Lemma write_total b st :
  total_size (self (snd (write b st)))
  = total_size (self st) + len (payload b) /\
  len (join (lines (self (snd (write b st)))))
  <= len (join (lines (self st))) + len (payload b).
Proof.
  pose proof (len_nonneg (join (lines (self st)))) as H0.
  pose proof (len_nonneg (payload b)) as H1.
  assert (Hj : len (join (lines (self st) ++ [payload b]))
               = len (join (lines (self st))) + len (payload b)).
  { unfold join. rewrite concat_app, len_app. simpl. rewrite app_nil_r.
    reflexivity. }
  destruct b as [b|b|]; cbn [payload] in *.
  3: { simpl. change (len (@nil byte)) with 0. lia. }
  all: unfold write, bind, get_self, set_self, ret; cbn [self lines total_size];
    destruct (_ >=? _); cbv beta;
    [ destruct (request _ _) as [r st1] eqn:Hq;
      apply request_inv in Hq; destruct Hq as (_ & _ & Hs & _);
      destruct r; cbn [snd self lines total_size];
      [ change (len (join [])) with 0; lia
      | rewrite Hs; cbn [self lines total_size]; lia ]
    | cbn [snd self lines total_size]; lia ].
Qed.

(** The running total is the number of bytes accepted, and the pending
    lines are among them. *)
Lemma reachable_total ps st :
  reachable ps st ->
  total_size (self st) = len (concat (map payload ps)) /\
  len (join (lines (self st))) <= total_size (self st).
Proof.
  induction 1 as [T script Hi | ps b st Hr [IHt IHl]].
  - destruct (__init__ T (fresh script)) as [r st] eqn:E.
    apply init_inv in E. destruct E as [E _]. cbn [snd]. rewrite E.
    simpl. split; reflexivity.
  - rewrite map_app, concat_app, len_app. simpl concat. rewrite app_nil_r.
    destruct (write_total b st) as [Ht Hl]. lia.
Qed.

Lemma len_zero_nil {A} (l : list A) : len l = 0 -> l = [].
Proof. destruct l; [reflexivity | unfold len; simpl; lia]. Qed.

(** What [close] sends, by cases on the pending lines, on the running
    total and on the fate of the upload of the last part. *)
Lemma close_issued st :
  issued st (snd (close st)) =
  let w := self st in
  let final := if total_size w =? 0 then CancelUpload else CompleteUpload in
  if truthy (join (lines w)) then
    match script (s3 st) with
    | Some _ :: _ => [UploadPart (parts w + 1) (join (lines w))]
    | _ => [UploadPart (parts w + 1) (join (lines w)); final]
    end
  else [final].
Proof.
  unfold close, bind, get_self, ret, request, issued. simpl.
  destruct (truthy (join (lines (self st))));
    destruct (total_size (self st) =? 0); simpl;
    destruct (script (s3 st)) as [|[e|] [|[e'|] sc]]; simpl;
    rewrite <- ?app_assoc, skipn_length_app; reflexivity.
Qed.

(** C3 as stated fails: when the upload of the last part raises,
    [close] has sent neither the completion nor the cancellation. *)
Lemma close_neither_counterexample :
  let st := snd ((__init__ 10 ;; write (PyBytes [x61]))
                   (fresh [None; Some (BotoError 1)])) in
  reachable [PyBytes [x61]] st /\
  fst (close st) = Raise (BotoError 1) /\
  (count is_complete (issued st (snd (close st)))
   + count is_cancel (issued st (snd (close st))))%nat <> 1%nat.
Proof.
  split; [|split; vm_compute; [reflexivity | intros H; discriminate H]].
  apply (@reach_write [] (PyBytes [x61])
           (snd (__init__ 10 (fresh [None; Some (BotoError 1)])))).
  apply reach_init. reflexivity.
Qed.

(** C3, amended. After any sequence of [write] calls: when no byte was
    accepted, [close] sends the cancellation and nothing else, so the
    upload is not completed; in every case [close] sends at most one of
    the completion and the cancellation, and it sends exactly one unless
    the upload of the last part raised, in which case it sends
    neither. *)
Theorem close_completes_or_cancels (ps : list pyobj) (st : session) :
  reachable ps st ->
  let new := issued st (snd (close st)) in
  (concat (map payload ps) = [] -> new = [CancelUpload]) /\
  (count is_complete new + count is_cancel new <= 1)%nat /\
  ((count is_complete new + count is_cancel new = 1)%nat \/
   exists n d e, new = [UploadPart n d] /\ fst (close st) = Raise e).
Proof.
  intros Hr new. subst new. rewrite close_issued. cbv zeta.
  destruct (reachable_total Hr) as [Ht Hl].
  split; [|split].
  - intros Hz. rewrite Hz in Ht. change (len (@nil byte)) with 0 in Ht.
    rewrite Ht in Hl. pose proof (len_nonneg (join (lines (self st)))) as H0.
    rewrite (@len_zero_nil _ (join (lines (self st)))) by lia.
    rewrite Ht. reflexivity.
  - destruct (truthy _); destruct (total_size (self st) =? 0);
      destruct (script (s3 st)) as [|[e|] sc]; cbn; lia.
  - destruct (truthy (join (lines (self st)))) eqn:Hb;
      destruct (total_size (self st) =? 0) eqn:Hz;
      destruct (script (s3 st)) as [|[e|] sc] eqn:Hs;
      try (left; reflexivity).
    all: right; exists (parts (self st) + 1), (join (lines (self st))), e;
      split; [reflexivity|];
      unfold close, bind, get_self, request; rewrite Hb, Hs; reflexivity.
Qed.

Lemma close_completes_or_cancels_witness :
  let st := snd (__init__ 2 (fresh [])) in
  issued st (snd (close st)) = [CancelUpload].
Proof.
  intros st.
  assert (Hr : reachable [] st) by (apply reach_init; reflexivity).
  apply (close_completes_or_cancels Hr). reflexivity.
Defined.

(** C4 as stated fails.  A session that wrote nothing and whose
    cancellation inside [close] raises sends the cancellation a second
    time, and when that one raises too its error leaves the [with]
    statement in place of the first; and when an exception is active on
    exit and the cancellation raises, the error of the cancellation
    replaces it. *)
Lemma exit_cancels_twice_counterexample :
  let st := snd (__init__ 2 (fresh [None; Some (BotoError 1);
                                       Some (BotoError 2)])) in
  let st2 := snd ((__init__ 2 ;; write (PyBytes [x61]))
                    (fresh [None; Some (BotoError 2)])) in
  fst (close st) = Raise (BotoError 1) /\
  ~ (count is_cancel (trace (s3 (snd (leave_scope None st)))) <= 1)%nat /\
  fst (leave_scope None st) <> Raise (BotoError 1) /\
  fst (leave_scope (Some KeyError) st2) <> Raise KeyError.
Proof.
  vm_compute. repeat split; try discriminate.
  intros H. apply Nat.leb_le in H. discriminate H.
Qed.

(** C4, amended. On exit with an active exception, [__exit__] sends one
    cancellation and nothing else.  On exit without one, it runs
    [close], and when [close] raises, for a part upload, the completion
    or the cancellation of an empty upload, it sends one cancellation
    after the requests of [close]; no cancellation follows a [close]
    that returned.  When bytes were written that cancellation is the
    only one.  The exception that set off the cancellation leaves the
    [with] statement when the cancellation returns, and the error of the
    cancellation leaves it when the cancellation raises. *)
Theorem exit_cancels_upload (type : option exn) (st : session) :
  let new := issued st (snd (leave_scope type st)) in
  let r := fst (leave_scope type st) in
  match type with
  | Some e =>
      new = [CancelUpload] /\
      r = propagated e (fst (_termination_error st))
  | None =>
      match close st with
      | (Ok _, st1) => new = issued st st1 /\ r = Ok tt
      | (Raise e, st1) =>
          new = issued st st1 ++ [CancelUpload] /\
          r = propagated e (fst (_termination_error st1)) /\
          (total_size (self st) <> 0 -> count is_cancel new = 1%nat)
      end
  end.
Proof.
  destruct type as [e|].
  - unfold leave_scope, __exit__, _termination_error, bind, ret, raise,
      request, issued, propagated.
    destruct (script (s3 st)) as [|[e'|] sc]; simpl;
      rewrite skipn_length_app; split; reflexivity.
  - pose proof (close_issued st) as Hc. cbv zeta in Hc.
    unfold leave_scope, __exit__, _termination_error, try_except, bind,
      ret, raise, propagated.
    unfold close, bind, get_self, ret, request, issued in *.
    destruct (truthy (join (lines (self st))));
      destruct (total_size (self st) =? 0) eqn:Hz;
      [apply Z.eqb_eq in Hz | apply Z.eqb_neq in Hz
      |apply Z.eqb_eq in Hz | apply Z.eqb_neq in Hz];
      destruct (script (s3 st)) as [|[e1|] [|[e2|] [|[e3|] sc]]];
      simpl in *;
      rewrite <- ?app_assoc, ?skipn_length_app in *; simpl;
      repeat split; try reflexivity; try congruence.
Qed.

(** Whatever the backend does, one exit sends the cancellation twice at
    most: once from [close] for an upload without bytes, and once from
    [_termination_error]. *)
Lemma exit_cancels_at_most_twice (type : option exn) (st : session) :
  (count is_cancel (issued st (snd (leave_scope type st))) <= 2)%nat.
Proof.
  destruct type as [e|];
    unfold leave_scope, __exit__, _termination_error, try_except, close,
      bind, get_self, ret, raise, request, issued.
  - destruct (script (s3 st)) as [|[e'|] sc]; simpl;
      rewrite skipn_length_app; cbn; lia.
  - destruct (truthy (join (lines (self st))));
      destruct (total_size (self st) =? 0);
      destruct (script (s3 st)) as [|[e1|] [|[e2|] [|[e3|] sc]]];
      simpl; rewrite <- ?app_assoc, ?skipn_length_app; cbn; lia.
Qed.

(** Nothing but [close] and [_termination_error] cancels: the requests
    of a [write] are part uploads. *)
Lemma write_issues_uploads (b : pyobj) (st : session) :
  count is_cancel (issued st (snd (write b st))) = 0%nat /\
  count is_complete (issued st (snd (write b st))) = 0%nat.
Proof.
  assert (E0 : issued st st = []).
  { unfold issued. rewrite <- (app_nil_r (trace (s3 st))) at 2.
    apply skipn_length_app. }
  destruct b as [b|b|]; [| |simpl; rewrite E0; split; reflexivity].
  all: unfold write, bind, get_self, set_self, ret, request, issued;
    cbn [self lines total_size chunk_bytes min_part_size parts s3];
    destruct (_ >=? _); simpl;
    [ destruct (script (s3 st)) as [|[e|] sc]; simpl;
      rewrite skipn_length_app; split; reflexivity
    | fold (issued st st); rewrite E0; split; reflexivity ].
Qed.

Lemma exit_cancels_upload_witness :
  let st := snd ((__init__ 2 ;; write (PyBytes [x61]))
                   (fresh [None; Some (BotoError 1)])) in
  issued st (snd (leave_scope None st))
  = [UploadPart 1 [x61]; CancelUpload] /\
  fst (leave_scope None st) = Raise (BotoError 1) /\
  count is_cancel (issued st (snd (leave_scope None st))) = 1%nat.
Proof.
  intros st.
  pose proof (exit_cancels_upload None st) as H. cbv zeta in H.
  change (close st) with
    (@Raise unit (BotoError 1),
     {| self := self st;
        s3 := {| trace := [InitiateUpload; UploadPart 1 [x61]];
                 script := [] |} |}) in H.
  destruct H as (H1 & H2 & H3).
  split; [exact H1 | split; [exact H2 | apply H3; discriminate]].
Defined.

End WriterFacts.

(** ** The URI resolver *)

Section UriFacts.

Import Uri.
Local Open Scope string_scope.

Lemma split_no_sep c s : mem c s = false -> split c s = [s].
Proof.
  induction s as [|x r IH]; simpl; [reflexivity|].
  destruct (Ascii.eqb x c); simpl; [discriminate|].
  intros H. rewrite (IH H). reflexivity.
Qed.

Lemma split1_no_sep c s : mem c s = false -> split1 c s = [s].
Proof.
  induction s as [|x r IH]; simpl; [reflexivity|].
  destruct (Ascii.eqb x c); simpl; [discriminate|].
  intros H. rewrite (IH H). reflexivity.
Qed.

(** The branch of [ParseUri] for [s3] and [s3n], on the string
    [netloc + path]: without an [@] and without a [/], the unpacking of
    [split('/', 1)] raises [ValueError]; no [RuntimeError] is raised
    on this path. *)
Lemma ParseUri_s3_no_slash nt uri default_scheme p :
  urlsplit (if nt && negb (contains "://" uri) then "file://" ++ uri else uri)
  = Ok p ->
  scheme p = "s3" \/ scheme p = "s3n" ->
  mem "@" (netloc p ++ path p) = false ->
  mem "/" (netloc p ++ path p) = false ->
  ParseUri nt uri default_scheme = Raise ValueError.
Proof.
  intros Hu Hs Ha Hsl. unfold ParseUri. rewrite Hu.
  destruct Hs as [Hs|Hs]; rewrite Hs; simpl;
    rewrite (split_no_sep _ _ Ha); simpl;
    rewrite (split1_no_sep _ _ Hsl); reflexivity.
Qed.

(** C8. An S3 URI that names a bucket and no key has no [/] to split
    at: [ParseUri] does not raise the [RuntimeError] it raises for the
    other malformed URIs, but the [ValueError] of the failed unpacking,
    with or without credentials; the other malformed inputs raise
    [RuntimeError]. *)
Theorem ParseUri_bucket_only_ValueError (nt : bool) (default_scheme : string) :
  ParseUri nt "s3://mybucket" default_scheme = Raise ValueError /\
  ParseUri nt "s3://key:secret@mybucket" default_scheme = Raise ValueError /\
  ParseUri nt "s3://a@b@c/d" default_scheme = Raise RuntimeError /\
  ParseUri nt "s3://key@mybucket/k" default_scheme = Raise RuntimeError /\
  ParseUri nt "s3://a:b:c@mybucket/k" default_scheme = Raise RuntimeError /\
  ParseUri nt "hdfs://" default_scheme = Raise RuntimeError /\
  ParseUri nt "file://" default_scheme = Raise RuntimeError.
Proof. destruct nt; repeat split; reflexivity. Qed.

(** C9 as stated fails: the path resolved for [hdfs:///user/x/file]
    keeps its leading [/]. *)
Lemma ParseUri_hdfs_counterexample :
  ParseUri false "hdfs:///user/x/file" "file"
  <> Ok (PathUri "hdfs" "user/x/file").
Proof. vm_compute. discriminate. Qed.

(** C9, amended. [hdfs:///user/x/file] resolves to the path
    [/user/x/file], and [hdfs://], whose path is empty, raises the
    [RuntimeError] of an invalid URI. *)
Theorem ParseUri_hdfs (nt : bool) (default_scheme : string) :
  ParseUri nt "hdfs:///user/x/file" default_scheme
  = Ok (PathUri "hdfs" "/user/x/file") /\
  ParseUri nt "hdfs://" default_scheme = Raise RuntimeError.
Proof. destruct nt; split; reflexivity. Qed.

End UriFacts.

(** ** The object-store reader *)

Section ReaderFacts.

Import Reader.

(** C10. With a size of [None], of zero or below zero, [read] asks the
    key for size 0 and returns the object from the cursor to its end;
    [read(0)] in particular returns all of it, not the empty string. *)
Theorem read_rest_of_object (size : option Z) (read_key : ReadKey) :
  reads_rest size ->
  read size read_key = key_read 0 read_key /\
  fst (read size read_key) = skipn (cursor read_key) (data read_key).
Proof.
  unfold reads_rest, read. intros H.
  assert (E : match size with
              | None => 0
              | Some n => if (n =? 0) || (n <? 0) then 0 else n
              end = 0).
  { destruct size as [n|]; [|reflexivity].
    destruct (n =? 0) eqn:E0; [reflexivity|].
    destruct (n <? 0) eqn:E1; [reflexivity|].
    apply Z.eqb_neq in E0. apply Z.ltb_ge in E1. lia. }
  rewrite E. split; reflexivity.
Qed.

Lemma read_rest_of_object_witness :
  let k := {| data := [x61; x62; x63]; resp := Some 1%nat |} in
  fst (read (Some (-5)) k) = [x62; x63] /\
  fst (read (Some 0) k) = [x62; x63] /\
  fst (read None k) = [x62; x63].
Proof.
  intros k. split; [|split].
  - apply (@read_rest_of_object (Some (-5)) k). simpl. lia.
  - apply (@read_rest_of_object (Some 0) k). simpl. lia.
  - apply (@read_rest_of_object None k). exact I.
Defined.

End ReaderFacts.

(** ** The parallel bucket iterator *)

Section BucketIterFacts.

Import BucketIter.
Local Open Scope string_scope.
Local Open Scope list_scope.

(** *** The pool *)





Lemma started_not_terminate (ks : list Key) :
  existsb is_terminate (map (fun k => Fetch (name k)) ks) = false.
Proof. induction ks; simpl; auto. Qed.



(** *** The generator, driven to its end *)



(** The consumer that drops the generator while it is suspended at the
    [yield] gets no [pool.terminate()]: whenever [take] hands over all
    the [n] results it was asked for, the pool was never told to
    stop. *)
Lemma take_abandoned a n g rs ev :
  g <> Finished ->
  take a n g = (rs, ev) -> length rs = n ->
  existsb is_terminate ev = false.
Proof.
  revert g rs ev; induction n as [|n IH]; intros g rs ev Hg; cbn [take].
  - intros H _. inversion H; subst. reflexivity.
  - destruct (next a g) as [[[r|] g'] ev1] eqn:Hn.
    2: { intros H Hl. inversion H; subst. discriminate. }
    destruct (take a n g') as [rs' ev'] eqn:Ht.
    intros H Hl. inversion H; subst. simpl in Hl.
    assert (Hg' : g' <> Finished /\ existsb is_terminate ev1 = false).
    { destruct g as [|key_no key content total_size p|]; [| |congruence];
        cbn [next] in Hn.
      - unfold imap_unordered, loop_head in Hn.
        destruct (pool_next _) as [[[[k c]|] p'] evp] eqn:Hp;
          inversion Hn; subst; clear Hn.
        split; [discriminate|]. cbn [existsb is_terminate orb].
        rewrite existsb_app, started_not_terminate. unfold pool_next in Hp.
        destruct (running _); [discriminate|].
        destruct (queue _); inversion Hp; subst; reflexivity.
      - destruct (match key_limit a with Some l => key_no + 1 >=? l | None => false end);
          [discriminate|].
        unfold loop_head in Hn.
        destruct (pool_next p) as [[[[k c]|] p'] evp] eqn:Hp;
          inversion Hn; subst; clear Hn.
        split; [discriminate|]. cbn [existsb is_terminate orb].
        unfold pool_next in Hp.
        destruct (running p); [discriminate|].
        destruct (queue p); inversion Hp; subst; reflexivity. }
    destruct Hg' as [Hg' He1].
    rewrite existsb_app, He1. simpl.
    apply (IH g' rs' ev' Hg' Ht). lia.
Qed.

(** C6. A consumer that takes one result of two and drops the
    generator leaves the pool running: [pool.terminate()] is not
    reached; it is when the same consumer goes on to the end of the
    listing or to the limit. *)
Theorem abandoned_pool_not_terminated :
  let a := two_keys_args None 2 in
  take a 1 Created
  = ([("a", [x61])], [PoolCreate 2; Fetch "a"; Fetch "b"]) /\
  existsb is_terminate (snd (take a 1 Created)) = false /\
  s3_iter_bucket a
  = Some ([("a", [x61]); ("b", [x62])],
          [PoolCreate 2; Fetch "a"; Fetch "b"; KeyClose "a"; KeyClose "b";
           PoolTerminate]) /\
  s3_iter_bucket (two_keys_args (Some 1) 2)
  = Some ([("a", [x61])],
          [PoolCreate 2; Fetch "a"; Fetch "b"; KeyClose "a"; PoolTerminate]).
Proof. repeat split; reflexivity. Qed.

(** C7. With [key_limit=0] and two accepted keys the iteration yields
    one result, whatever the number of workers: the limit is tested
    after the [yield]. *)
Theorem key_limit_zero_yields_one (w : positive) :
  exists ev,
    s3_iter_bucket (two_keys_args (Some 0) w)
    = Some ([("a", [x61])], ev) /\
    Z.of_nat (length [("a", [x61])])
    <> Z.min 0 (len (keys (two_keys_args (Some 0) w))).
Proof.
  unfold s3_iter_bucket. cbn -[Pos.to_nat firstn skipn].
  pose proof (Pos2Nat.is_pos w) as Hw.
  destruct (Pos.to_nat w) as [|[|n]]; [lia| |];
    cbn; rewrite ?firstn_nil, ?skipn_nil; cbn;
    eexists; (split; [reflexivity | discriminate]).
Qed.

End BucketIterFacts.

(** * Further properties *)

(** ** Lines and chunk boundaries *)

Section LineReaderChunks.

Import LineReader.

Lemma lines_of_plain s :
  index_of newline s = None ->
  lines_of s = if truthy s then [s] else [].
Proof.
  induction s as [|c r IH]; simpl; [reflexivity|].
  destruct (Byte.eqb c newline); [discriminate|].
  destruct (index_of newline r); [discriminate|]. intros _.
  rewrite IH by reflexivity. destruct r; reflexivity.
Qed.

Lemma lines_of_complete l s :
  complete l -> lines_of (l ++ s) = l :: lines_of s.
Proof.
  intros (pre & -> & Hpre). rewrite <- app_assoc. simpl.
  induction pre as [|c r IH]; simpl in *.
  - reflexivity.
  - destruct (Byte.eqb c newline); [discriminate|].
    destruct (index_of newline r); [discriminate|].
    rewrite IH by reflexivity. reflexivity.
Qed.

Lemma lines_of_completes ls s :
  Forall complete ls -> lines_of (concat ls ++ s) = ls ++ lines_of s.
Proof.
  induction 1 as [|l ls Hl Hls IH]; simpl; [reflexivity|].
  rewrite <- app_assoc, (lines_of_complete _ Hl), IH. reflexivity.
Qed.

(** The inner loop yields complete lines. *)
Lemma scan_complete buf start :
  0 <= start <= len buf ->
  Forall complete (fst (scan buf start)).
Proof.
  funelim (scan buf start); intros Hr; simpl; [constructor|].
  clear Heqcall H0. apply Z.eqb_neq in Hnz.
  destruct (@find_bounds buf start _ eq_refl Hnz) as [Hlt Hle].
  constructor; [|apply H; lia].
  unfold find, slice in *.
  destruct (index_of newline (skipn (Z.to_nat start) buf)) as [i|] eqn:Hi;
    [|lia].
  destruct (index_of_cut _ _ Hi) as (pre & Hpre & Hno).
  exists pre. split; [|exact Hno].
  rewrite <- Hpre. f_equal. lia.
Qed.

Lemma iter_chunks_lines_of buf chunks :
  index_of newline buf = None ->
  iter_chunks buf chunks = lines_of (buf ++ concat chunks).
Proof.
  revert buf; induction chunks as [|chunk rest IH]; intros buf Hb; simpl.
  - rewrite app_nil_r. symmetry. apply lines_of_plain. exact Hb.
  - assert (Hr : 0 <= 0 <= len (buf ++ chunk)) by (unfold len; lia).
    destruct (@scan_spec _ _ Hr) as (Hc & _ & Hn).
    pose proof (@scan_complete _ _ Hr) as Hl.
    rewrite (IH _ Hn), <- (lines_of_completes _ Hl).
    rewrite app_assoc, app_assoc, Hc. simpl. reflexivity.
Qed.

(** X1. The lines [s3_iter_lines] yields are the lines of the whole
    object, wherever the chunks happen to be cut. *)
Theorem s3_iter_lines_lines_of (chunks : list bytes) :
  s3_iter_lines chunks = lines_of (concat chunks).
Proof. apply iter_chunks_lines_of. reflexivity. Qed.

(** X2. Two ways of cutting the same bytes into chunks yield the same
    lines. *)
Theorem s3_iter_lines_chunking (chunks chunks' : list bytes) :
  concat chunks = concat chunks' ->
  s3_iter_lines chunks = s3_iter_lines chunks'.
Proof.
  intros H. unfold s3_iter_lines.
  rewrite !iter_chunks_lines_of, H by reflexivity. reflexivity.
Qed.

Lemma s3_iter_lines_chunking_witness :
  s3_iter_lines [[x61; x0a; x62]; [x63; x0a]]
  = s3_iter_lines [[x61]; []; [x0a; x62; x63]; [x0a]].
Proof. apply s3_iter_lines_chunking. reflexivity. Defined.

Lemma lines_of_shape s :
  Forall (fun l => l <> [] /\ index_of newline (removelast l) = None)
         (lines_of s).
Proof.
  induction s as [|c r IH]; simpl; [constructor|].
  destruct (Byte.eqb c newline) eqn:E.
  - constructor; [|exact IH]. split; [discriminate | reflexivity].
  - destruct (lines_of r) as [|l ls]; constructor.
    + split; [discriminate | reflexivity].
    + constructor.
    + inversion IH as [|? ? [Hl Hn] Hls]; subst.
      split; [discriminate|].
      destruct l as [|x l]; [congruence|].
      change (removelast (c :: x :: l)) with (c :: removelast (x :: l)).
      cbn [index_of]. rewrite E, Hn. reflexivity.
    + inversion IH; assumption.
Qed.

(** X3. No line yielded is empty, and none holds a newline before its
    last byte: a line is never two lines run together. *)
Theorem s3_iter_lines_line_shape (chunks : list bytes) :
  Forall (fun l => l <> [] /\ index_of newline (removelast l) = None)
         (s3_iter_lines chunks).
Proof.
  unfold s3_iter_lines. rewrite iter_chunks_lines_of by reflexivity.
  apply lines_of_shape.
Qed.

Lemma lines_of_length s :
  length (lines_of s)
  = (count_newlines s
     + if truthy s && negb (ends_with_newline s) then 1 else 0)%nat.
Proof.
  assert (Hcons : forall c r, r <> [] ->
            ends_with_newline (c :: r) = ends_with_newline r).
  { intros c r Hr. unfold ends_with_newline. simpl.
    destruct (rev r) as [|y t] eqn:Er; [|reflexivity].
    apply (f_equal (@rev byte)) in Er. rewrite rev_involutive in Er.
    contradiction. }
  induction s as [|c r IH]; [reflexivity|].
  cbn [lines_of count_newlines truthy andb].
  destruct r as [|x r'].
  - unfold ends_with_newline. simpl. destruct (Byte.eqb c newline); reflexivity.
  - rewrite Hcons by discriminate.
    cbn [truthy andb] in IH.
    destruct (Byte.eqb c newline).
    + cbn [length]. rewrite IH. lia.
    + destruct (lines_of (x :: r')) as [|l ls] eqn:El.
      * exfalso. simpl in El. destruct (Byte.eqb x newline); [discriminate|].
        destruct (lines_of r'); discriminate.
      * cbn [length] in *. lia.
Qed.

(** X4. The number of lines yielded is the number of newlines in the
    object, and one more when the object does not end in a newline. *)
Theorem s3_iter_lines_count (chunks : list bytes) :
  let data := concat chunks in
  length (s3_iter_lines chunks)
  = (count_newlines data
     + if truthy data && negb (ends_with_newline data) then 1 else 0)%nat.
Proof.
  cbv zeta. unfold s3_iter_lines. rewrite iter_chunks_lines_of by reflexivity.
  apply lines_of_length.
Qed.

End LineReaderChunks.

(** ** The buffer of the writer *)

Section WriterBuffer.

Import Writer.
Local Open Scope writer_scope.

(** What one [write] of a byte string does, by cases on the threshold
    and on the fate of the upload. *)
Lemma write_bytes_cases b st :
  let w := self st in
  let pending := join (lines w ++ [b]) in
  if chunk_bytes w + len b >=? min_part_size w then
    issued st (snd (write (PyBytes b) st)) = [UploadPart (parts w + 1) pending] /\
    trace (s3 (snd (write (PyBytes b) st)))
    = trace (s3 st) ++ [UploadPart (parts w + 1) pending] /\
    match script (s3 st) with
    | Some e :: _ =>
        fst (write (PyBytes b) st) = Raise e /\
        self (snd (write (PyBytes b) st))
        = {| min_part_size := min_part_size w; lines := lines w ++ [b];
             total_size := total_size w + len b;
             chunk_bytes := chunk_bytes w + len b; parts := parts w |}
    | _ =>
        fst (write (PyBytes b) st) = Ok tt /\
        self (snd (write (PyBytes b) st))
        = {| min_part_size := min_part_size w; lines := [];
             total_size := total_size w + len b;
             chunk_bytes := 0; parts := parts w + 1 |}
    end
  else
    issued st (snd (write (PyBytes b) st)) = [] /\
    trace (s3 (snd (write (PyBytes b) st))) = trace (s3 st) /\
    fst (write (PyBytes b) st) = Ok tt /\
    self (snd (write (PyBytes b) st))
    = {| min_part_size := min_part_size w; lines := lines w ++ [b];
         total_size := total_size w + len b;
         chunk_bytes := chunk_bytes w + len b; parts := parts w |}.
Proof.
  cbv zeta. unfold write, bind, get_self, set_self, ret, request, issued.
  cbn [self s3 lines total_size chunk_bytes min_part_size parts].
  destruct (_ >=? _); simpl.
  - destruct (script (s3 st)) as [|[e|] sc]; simpl;
      rewrite skipn_length_app; auto.
  - rewrite <- (app_nil_r (trace (s3 st))) at 2.
    rewrite skipn_length_app. auto.
Qed.

Lemma write_text_bytes b st : write (PyText b) st = write (PyBytes b) st.
Proof. reflexivity. Qed.

Lemma write_other st : write PyOther st = (Raise TypeError, st).
Proof. reflexivity. Qed.

Lemma reachable_chunk_bytes (ps : list pyobj) (st : session) :
  reachable ps st ->
  chunk_bytes (self st) = len (join (lines (self st))).
Proof.
  induction 1 as [T script Hi | ps b st Hr IHc].
  - destruct (__init__ T (fresh script)) as [r st] eqn:E.
    apply init_inv in E. destruct E as [E _]. cbn [snd]. rewrite E.
    reflexivity.
  - destruct b as [b|b|]; [| |rewrite write_other; auto].
    2: rewrite write_text_bytes.
    all: pose proof (write_bytes_cases b st) as H; cbv zeta in H;
      destruct (_ >=? _);
      [ destruct H as (_ & _ & H);
        destruct (script (s3 st)) as [|[e|] sc]; destruct H as [_ ->]
      | destruct H as (_ & _ & _ & ->) ];
      cbn [chunk_bytes lines parts]; unfold join in *;
      rewrite ?concat_app, ?len_app; simpl; rewrite ?app_nil_r;
      try reflexivity; lia.
Qed.

(** X5. However the calls of [write] went, whether they returned or
    raised, [chunk_bytes] is the number of bytes in the pending lines,
    [total_size] is the number of bytes accepted so far, and the pending
    bytes are among them. *)
Theorem reachable_buffer (ps : list pyobj) (st : session) :
  reachable ps st ->
  chunk_bytes (self st) = len (join (lines (self st))) /\
  total_size (self st) = len (concat (map payload ps)) /\
  chunk_bytes (self st) <= total_size (self st).
Proof.
  intros Hr. pose proof (reachable_chunk_bytes Hr) as Hc.
  destruct (reachable_total Hr) as [Ht Hl].
  split; [exact Hc|]. split; [exact Ht|]. rewrite Hc. exact Hl.
Qed.

Lemma reachable_buffer_witness :
  let st := snd (write (PyBytes [x61; x62])
                   (snd (__init__ 5 (fresh [])))) in
  chunk_bytes (self st) = 2 /\ total_size (self st) = 2 /\
  chunk_bytes (self st) <= total_size (self st).
Proof.
  intros st.
  apply (@reachable_buffer ([] ++ [PyBytes [x61; x62]]) st).
  apply reach_write. apply reach_init. reflexivity.
Defined.

(** X6. With a positive threshold, a [write] that returns leaves fewer
    than [min_part_size] bytes pending: the writer never holds a full
    part between two calls. *)
Theorem write_keeps_buffer_small (ps : list pyobj) (b : pyobj) (st : session) :
  reachable ps st ->
  0 < min_part_size (self st) ->
  fst (write b st) = Ok tt ->
  len (join (lines (self (snd (write b st)))))
  < min_part_size (self (snd (write b st))).
Proof.
  intros Hr HT. pose proof (reachable_chunk_bytes Hr) as Hc.
  destruct b as [b|b|]; [| |rewrite write_other; discriminate].
  2: rewrite write_text_bytes.
  all: pose proof (write_bytes_cases b st) as H; cbv zeta in H;
    destruct (chunk_bytes (self st) + len b >=? min_part_size (self st)) eqn:E;
    [ destruct H as (_ & _ & H);
      destruct (script (s3 st)) as [|[e|] sc]; destruct H as [Hf ->];
      intros Hok; try congruence; cbn [lines min_part_size]; exact HT
    | destruct H as (_ & _ & _ & ->); intros _;
      cbn [lines min_part_size];
      rewrite Z.geb_leb in E; apply Z.leb_gt in E;
      unfold join in *; rewrite concat_app, len_app; simpl;
      rewrite app_nil_r; lia ].
Qed.

Lemma write_keeps_buffer_small_witness :
  let st := snd (__init__ 3 (fresh [])) in
  len (join (lines (self (snd (write (PyBytes [x61; x62]) st))))) < 3.
Proof.
  intros st.
  apply (@write_keeps_buffer_small [] (PyBytes [x61; x62]) st);
    [apply reach_init; reflexivity | reflexivity | reflexivity].
Defined.

Lemma write_trace b st :
  trace (s3 (snd (write b st)))
  = trace (s3 st) ++ issued st (snd (write b st)).
Proof.
  destruct b as [b|b|].
  3: { rewrite write_other. unfold issued. cbn [snd].
       rewrite skipn_all, app_nil_r. reflexivity. }
  2: rewrite write_text_bytes.
  all: pose proof (write_bytes_cases b st) as H; cbv zeta in H;
    destruct (_ >=? _);
    [ destruct H as (-> & -> & _); reflexivity
    | destruct H as (-> & -> & _); rewrite app_nil_r; reflexivity ].
Qed.

Lemma write_threshold b st :
  min_part_size (self (snd (write b st))) = min_part_size (self st).
Proof.
  destruct b as [b|b|]; [| |reflexivity].
  2: rewrite write_text_bytes.
  all: pose proof (write_bytes_cases b st) as H; cbv zeta in H;
    destruct (_ >=? _);
    [ destruct H as (_ & _ & H);
      destruct (script (s3 st)) as [|[e|] sc]; destruct H as [_ ->]
    | destruct H as (_ & _ & _ & ->) ]; reflexivity.
Qed.

(** X7. Every part that [write] sends, in any session and whatever the
    backend answers, holds at least [min_part_size] bytes: only the part
    sent by [close] can be shorter. *)
Theorem write_sends_full_parts (ps : list pyobj) (st : session) :
  reachable ps st ->
  Forall (fun part => min_part_size (self st) <= len (snd part))
         (uploaded (trace (s3 st))).
Proof.
  induction 1 as [T script Hi | ps b st Hr IH].
  - destruct (__init__ T (fresh script)) as [r st] eqn:E.
    apply init_inv in E. destruct E as [_ E]. cbn [snd]. rewrite E.
    constructor.
  - rewrite write_threshold, write_trace, uploaded_app.
    apply Forall_app. split; [exact IH|].
    pose proof (reachable_chunk_bytes Hr) as Hc.
    destruct b as [b|b|].
    3: { rewrite write_other. unfold issued. cbn [snd].
         rewrite skipn_all. constructor. }
    2: rewrite write_text_bytes.
    all: pose proof (write_bytes_cases b st) as H; cbv zeta in H;
      destruct (chunk_bytes (self st) + len b >=? min_part_size (self st)) eqn:E;
      [ destruct H as (-> & _); cbn [uploaded]; constructor; [|constructor];
        cbn [snd]; apply Z.geb_le in E;
        unfold join in *; rewrite concat_app, len_app; simpl;
        rewrite app_nil_r; lia
      | destruct H as (-> & _); constructor ].
Qed.

Lemma write_sends_full_parts_witness :
  let st := snd (write (PyBytes [x61; x62; x63])
                   (snd (__init__ 2 (fresh [])))) in
  Forall (fun part => 2 <= len (snd part)) (uploaded (trace (s3 st))).
Proof.
  intros st.
  apply (@write_sends_full_parts ([] ++ [PyBytes [x61; x62; x63]]) st).
  apply reach_write. apply reach_init. reflexivity.
Defined.

(** X8. When the upload inside [write] raises, nothing written is lost
    and no part number is used up: the lines stay pending, the counter
    stays, and a [close] that follows sends again the part that failed,
    under the same number and with the same bytes. *)
Theorem failed_upload_is_sent_again (b : bytes) (e : exn) (st : session) :
  chunk_bytes (self st) + len b >= min_part_size (self st) ->
  hd None (script (s3 st)) = Some e ->
  join (lines (self st) ++ [b]) <> [] ->
  let st' := snd (write (PyBytes b) st) in
  let part := UploadPart (parts (self st) + 1) (join (lines (self st) ++ [b])) in
  fst (write (PyBytes b) st) = Raise e /\
  issued st st' = [part] /\
  hd CancelUpload (issued st' (snd (close st'))) = part.
Proof.
  intros HT Hs Hne. cbv zeta.
  pose proof (write_bytes_cases b st) as H; cbv zeta in H.
  replace (chunk_bytes (self st) + len b >=? min_part_size (self st))
    with true in H by (symmetry; apply Z.geb_le; lia).
  destruct H as (Hi & _ & H).
  destruct (script (s3 st)) as [|[e'|] sc]; try discriminate.
  injection Hs as <-. destruct H as [Hf Hw].
  split; [exact Hf|]. split; [exact Hi|].
  rewrite close_issued. cbv zeta. rewrite Hw. cbn [lines parts total_size].
  destruct (join (lines (self st) ++ [b])) eqn:Ej; [contradiction|].
  cbn [truthy].
  destruct (script (s3 (snd (write (PyBytes b) st)))) as [|[e2|] sc2];
    reflexivity.
Qed.

Lemma failed_upload_is_sent_again_witness :
  let st := snd (__init__ 2 (fresh [None; Some (BotoError 7)])) in
  let st' := snd (write (PyBytes [x61; x62]) st) in
  fst (write (PyBytes [x61; x62]) st) = Raise (BotoError 7) /\
  issued st st' = [UploadPart 1 [x61; x62]] /\
  hd CancelUpload (issued st' (snd (close st'))) = UploadPart 1 [x61; x62].
Proof.
  intros st st'.
  apply (@failed_upload_is_sent_again [x61; x62] (BotoError 7) st);
    [vm_compute; discriminate | reflexivity | discriminate].
Defined.

(** *** Whole sessions *)

Lemma block_trace body st :
  exists new,
    trace (s3 (snd (block body st))) = trace (s3 st) ++ new /\
    count is_cancel new = 0%nat /\ count is_complete new = 0%nat.
Proof.
  revert st; induction body as [|a rest IH]; intros st; cbn [block].
  - exists []. rewrite app_nil_r. auto.
  - unfold bind. destruct a as [b|e]; cbn [perform].
    + pose proof (write_trace b st) as Ht.
      destruct (write_issues_uploads b st) as [Hc Hf].
      destruct (write b st) as [[[]|e] st1]; cbn [snd] in *.
      * destruct (IH st1) as (new & Hn & Hc' & Hf').
        exists (issued st st1 ++ new). rewrite Hn, Ht, app_assoc.
        rewrite !count_app, Hc, Hf, Hc', Hf'. auto.
      * exists (issued st st1). auto.
    + exists []. unfold raise. cbn [snd]. rewrite app_nil_r. auto.
Qed.

(** X9. When the block of the [with] statement raises, be it a
    [TypeError] of [write], an error of the backend or an exception of
    the caller, the upload is never completed: no completion is sent in
    the session, one cancellation is sent, and it is the last
    request. *)
Theorem failed_block_cancels
        (T : Z) (body : list action) (answers : list (option exn))
        (st0 st1 : session) (e : exn) :
  __init__ T (fresh answers) = (Ok tt, st0) ->
  block body st0 = (Raise e, st1) ->
  let r := scoped_session T body (fresh answers) in
  count is_complete (trace (s3 (snd r))) = 0%nat /\
  count is_cancel (trace (s3 (snd r))) = 1%nat /\
  last (trace (s3 (snd r))) InitiateUpload = CancelUpload /\
  fst r = propagated e (fst (_termination_error st1)).
Proof.
  intros Hi Hb. cbv zeta.
  assert (E : scoped_session T body (fresh answers) = leave_scope (Some e) st1)
    by (unfold scoped_session; unfold bind at 1; rewrite Hi, Hb; reflexivity).
  rewrite E. clear E.
  apply init_inv in Hi. destruct Hi as [_ Ht0].
  destruct (block_trace body st0) as (new & Hn & Hc & Hf).
  rewrite Hb in Hn. cbn [snd] in Hn. rewrite Ht0 in Hn.
  unfold leave_scope, __exit__, _termination_error, bind, ret, raise,
    request, propagated.
  destruct (script (s3 st1)) as [|[e'|] sc]; cbn [fst snd s3 trace];
    rewrite Hn, last_last, !count_app, Hc, Hf; auto.
Qed.

Lemma failed_block_cancels_witness :
  let body := [Write (PyBytes [x61; x62; x63]); Write PyOther;
               Write (PyBytes [x64])] in
  let r := scoped_session 2 body (fresh []) in
  count is_complete (trace (s3 (snd r))) = 0%nat /\
  count is_cancel (trace (s3 (snd r))) = 1%nat /\
  last (trace (s3 (snd r))) InitiateUpload = CancelUpload /\
  fst r = Raise TypeError.
Proof.
  intros body r.
  exact (@failed_block_cancels 2 body [] _ _ TypeError eq_refl eq_refl).
Defined.

Lemma block_reachable ps objs st st1 :
  reachable ps st ->
  block (map Write objs) st = (Ok tt, st1) ->
  reachable (ps ++ objs) st1.
Proof.
  revert ps st; induction objs as [|b rest IH]; intros ps st Hr;
    cbn [map block].
  - unfold ret. intros H; inversion H; subst. rewrite app_nil_r. exact Hr.
  - unfold bind. cbn [perform].
    pose proof (reach_write b Hr) as Hr'.
    destruct (write b st) as [[[]|e] st2]; [|discriminate].
    cbn [snd] in Hr'. intros H.
    change (b :: rest) with ([b] ++ rest). rewrite app_assoc.
    apply (IH _ st2 Hr' H).
Qed.

Lemma consistent_block_objs written objs st st1 :
  consistent written st ->
  block (map Write objs) st = (Ok tt, st1) ->
  consistent (written ++ concat (map payload objs)) st1.
Proof.
  revert written st; induction objs as [|b rest IH]; intros written st Hc;
    cbn [map block concat].
  - unfold ret. intros H; inversion H; subst. rewrite app_nil_r. exact Hc.
  - unfold bind. cbn [perform].
    destruct (write b st) as [[[]|e] st2] eqn:Hw; [|discriminate].
    intros H. rewrite app_assoc. apply (IH _ st2); [|exact H].
    destruct b as [b|b|]; cbn [payload].
    + eapply consistent_write; eassumption.
    + rewrite write_text_bytes in Hw. eapply consistent_write; eassumption.
    + rewrite write_other in Hw. discriminate.
Qed.

Lemma close_ok_trace st st' :
  close st = (Ok tt, st') ->
  trace (s3 st')
  = trace (s3 st)
    ++ (if truthy (join (lines (self st)))
        then [UploadPart (parts (self st) + 1) (join (lines (self st)))]
        else [])
    ++ [if total_size (self st) =? 0 then CancelUpload else CompleteUpload].
Proof.
  unfold close, bind, get_self, ret, request.
  destruct (truthy (join (lines (self st))));
    destruct (total_size (self st) =? 0); simpl;
    destruct (script (s3 st)) as [|[e1|] [|[e2|] sc]]; simpl;
    intros H; inversion H; subst; simpl;
    rewrite <- ?app_assoc; reflexivity.
Qed.

Lemma leave_scope_ok st st' :
  leave_scope None st = (Ok tt, st') -> close st = (Ok tt, st').
Proof.
  unfold leave_scope, __exit__, try_except, _termination_error, bind, ret,
    raise.
  destruct (close st) as [[[]|e] st1]; simpl.
  - intros H; inversion H; subst. reflexivity.
  - unfold request.
    destruct (script (s3 st1)) as [|[e'|] sc]; simpl; discriminate.
Qed.

(** X10. When the [with] statement around a sequence of writes returns,
    the session ended in one request, the completion when bytes were
    written and the cancellation when none were, never both; before it
    the backend received the parts 1, 2, 3, ..., and they make up the
    bytes written, text counted in its UTF-8 encoding. *)
Theorem scoped_session_returns
        (T : Z) (objs : list pyobj) (answers : list (option exn))
        (st' : session) :
  scoped_session T (map Write objs) (fresh answers) = (Ok tt, st') ->
  let tr := trace (s3 st') in
  let written := concat (map payload objs) in
  map fst (uploaded tr) = map Z.of_nat (seq 1 (length (uploaded tr))) /\
  concat (map snd (uploaded tr)) = written /\
  last tr InitiateUpload
  = (if truthy written then CompleteUpload else CancelUpload) /\
  (count is_complete tr + count is_cancel tr = 1)%nat.
Proof.
  unfold scoped_session. unfold bind at 1.
  destruct (__init__ T (fresh answers)) as [[[]|e] st0] eqn:Hi; [|discriminate].
  destruct (block (map Write objs) st0) as [[[]|e] st1] eqn:Hb.
  2: { unfold leave_scope, __exit__, _termination_error, bind, ret, raise,
         request.
       destruct (script (s3 st1)) as [|[e'|] sc]; discriminate. }
  intros Hl. apply leave_scope_ok in Hl. cbv zeta.
  pose proof (consistent_init _ _ Hi) as Hc0.
  pose proof (consistent_block_objs _ Hc0 Hb) as Hc1. simpl app in Hc1.
  destruct (close_uploaded Hc1 Hl) as [Hn Hd].
  split; [exact Hn|]. split; [exact Hd|].
  assert (Hr0 : reachable [] st0).
  { pose proof (reach_init T answers) as R. rewrite Hi in R. apply R.
    reflexivity. }
  pose proof (block_reachable _ Hr0 Hb) as Hr1. simpl app in Hr1.
  destruct (reachable_total Hr1) as [Htot Hpend].
  destruct (block_trace (map Write objs) st0) as (new & Hnew & Hcc & Hcf).
  rewrite Hb in Hnew. cbn [snd] in Hnew.
  apply init_inv in Hi. destruct Hi as [_ Ht0]. rewrite Ht0 in Hnew.
  rewrite (close_ok_trace _ Hl), Hnew.
  assert (Hz : (total_size (self st1) =? 0)
               = negb (truthy (concat (map payload objs)))).
  { rewrite Htot. destruct (concat (map payload objs)); [reflexivity|].
    unfold len. simpl. reflexivity. }
  rewrite Hz. split.
  - rewrite !app_assoc, last_last.
    destruct (truthy (concat (map payload objs))); reflexivity.
  - rewrite !count_app, Hcc, Hcf.
    destruct (truthy (join (lines (self st1))));
      destruct (truthy (concat (map payload objs))); reflexivity.
Qed.

Lemma scoped_session_returns_witness :
  let objs := [PyBytes [x61; x62; x63]; PyText [x64]; PyBytes []] in
  let st' := snd (scoped_session 2 (map Write objs) (fresh [])) in
  map fst (uploaded (trace (s3 st'))) = [1; 2] /\
  concat (map snd (uploaded (trace (s3 st')))) = [x61; x62; x63; x64] /\
  last (trace (s3 st')) InitiateUpload = CompleteUpload /\
  (count is_complete (trace (s3 st')) + count is_cancel (trace (s3 st')) = 1)%nat.
Proof.
  intros objs st'.
  exact (@scoped_session_returns 2 objs [] st' eq_refl).
Defined.

End WriterBuffer.

(** ** Locations that resolve *)

Section UriResolves.

Import Uri.
Local Open Scope string_scope.

Lemma mem_app c a b : mem c (a ++ b) = mem c a || mem c b.
Proof.
  induction a as [|x a IH]; simpl; [reflexivity|].
  rewrite IH. apply orb_assoc.
Qed.



Lemma splitnetloc_whole url :
  fst (splitnetloc url) ++ snd (splitnetloc url) = url.
Proof.
  induction url as [|x r IH]; simpl; [reflexivity|].
  destruct (_ || _); simpl; [reflexivity|]. rewrite IH. reflexivity.
Qed.

Lemma cut_absent c s : mem c s = false -> cut c s = (s, EmptyString).
Proof. intros H. unfold cut. rewrite (split1_no_sep _ _ H). reflexivity. Qed.

(** What [urlsplit] makes of [//] followed by a plain string: the
    network location and the path, put together again, are that
    string. *)
Lemma urlsplit_after_slashes scheme rest :
  plain rest ->
  (let (netloc, url) := splitnetloc rest in
   if (mem "[" netloc && negb (mem "]" netloc))
      || (mem "]" netloc && negb (mem "[" netloc))
   then Raise ValueError
   else
     let (url, fragment) := cut "#" url in
     let (url, query) := cut "?" url in
     Ok {| Uri.scheme := scheme; netloc := netloc; path := url;
           query := query; fragment := fragment |})
  = Ok {| Uri.scheme := scheme; netloc := fst (splitnetloc rest);
          path := snd (splitnetloc rest);
          query := EmptyString; fragment := EmptyString |}.
Proof.
  intros (Hq & Hf & Hl & Hr).
  pose proof (splitnetloc_whole rest) as Hw.
  destruct (splitnetloc rest) as [n u]. cbn [fst snd] in *.
  rewrite <- Hw, !mem_app in Hq, Hf, Hl, Hr.
  apply orb_false_iff in Hq, Hf, Hl, Hr.
  destruct Hq as [_ Hq], Hf as [_ Hf], Hl as [Hl _], Hr as [Hr _].
  rewrite Hl, Hr. cbn [andb orb negb].
  rewrite (cut_absent _ _ Hf), (cut_absent _ _ Hq). reflexivity.
Qed.


Lemma contains_at_colon pre rest :
  contains "://" (pre ++ "://" ++ rest) = true.
Proof.
  induction pre as [|x pre IH].
  - cbn. destruct rest; reflexivity.
  - change (contains "://" (String x pre ++ "://" ++ rest))
      with (String.prefix "://" (String x (pre ++ "://" ++ rest))
            || contains "://" (pre ++ "://" ++ rest)).
    rewrite IH. apply orb_true_r.
Qed.

(** [ParseUri] on an [s3] or [s3n] URI whose location is plain: the
    branch for the object store, run on the location. *)
Lemma ParseUri_s3_location nt n rest default_scheme :
  plain rest ->
  ParseUri nt (s3_scheme n ++ "://" ++ rest) default_scheme
  = let bucket_id := split "@" rest in
    if (length bucket_id =? 1)%nat then
      match unpack2 (split1 "/" (hd EmptyString bucket_id)) with
      | Raise e => Raise e
      | Ok (bucket_id, key_id) =>
          Ok (S3Uri (s3_scheme n) bucket_id key_id None None)
      end
    else if ((length bucket_id =? 2)%nat &&
             (length (split ":" (hd EmptyString bucket_id)) =? 2)%nat)%bool
    then
      match unpack2 (split ":" (hd EmptyString bucket_id)) with
      | Raise e => Raise e
      | Ok (access_id, access_secret) =>
        match unpack2 (split1 "/" (nth 1 bucket_id EmptyString)) with
        | Raise e => Raise e
        | Ok (bucket_id, key_id) =>
            Ok (S3Uri (s3_scheme n) bucket_id key_id
                      (Some access_id) (Some access_secret))
        end
      end
    else Raise RuntimeError.
Proof.
  intros Hp. unfold ParseUri.
  rewrite contains_at_colon, andb_false_r.
  assert (E : urlsplit (s3_scheme n ++ "://" ++ rest)
              = Ok {| Uri.scheme := s3_scheme n;
                      netloc := fst (splitnetloc rest);
                      path := snd (splitnetloc rest);
                      query := EmptyString; fragment := EmptyString |}).
  { rewrite <- (urlsplit_after_slashes (s3_scheme n) Hp).
    destruct n; reflexivity. }
  rewrite E. cbn [Uri.scheme netloc path].
  rewrite (splitnetloc_whole rest).
  destruct n; reflexivity.
Qed.






Lemma split_length c s : length (split c s) = S (count_char c s).
Proof.
  induction s as [|x r IH]; simpl; [reflexivity|].
  destruct (Ascii.eqb x c); simpl; [rewrite IH; reflexivity|].
  destruct (split c r); simpl in *; lia.
Qed.

Lemma split1_shape c s :
  if mem c s then exists a b, split1 c s = [a; b] else split1 c s = [s].
Proof.
  induction s as [|x r IH]; simpl; [reflexivity|].
  destruct (Ascii.eqb x c); simpl; [eauto|].
  destruct (mem c r).
  - destruct IH as (a & b & ->). eauto.
  - rewrite IH. reflexivity.
Qed.

(** X13. On an S3 URI, [ParseUri] raises the [RuntimeError] of an
    invalid URI exactly when the location holds more than one [@], or
    one [@] after credentials that are not two fields around a single
    [:]; it raises the [ValueError] of the failed unpacking exactly when
    it does not raise [RuntimeError] and no [/] parts bucket and key;
    and it returns in all other cases. *)
Theorem ParseUri_s3_errors (nt n : bool) (default_scheme rest : string) :
  plain rest ->
  let r := ParseUri nt (s3_scheme n ++ "://" ++ rest) default_scheme in
  let ambiguous :=
    (2 <= count_char "@" rest)%nat \/
    (count_char "@" rest = 1%nat /\
     count_char ":" (hd EmptyString (split "@" rest)) <> 1%nat) in
  (r = Raise RuntimeError <-> ambiguous) /\
  (r = Raise ValueError <->
   ~ ambiguous /\ mem "/" (bucket_part rest) = false) /\
  ((exists u, r = Ok u) <->
   ~ ambiguous /\ mem "/" (bucket_part rest) = true).
Proof.
  intros Hp. cbv zeta.
  rewrite (ParseUri_s3_location nt n default_scheme Hp). cbv zeta.
  unfold bucket_part.
  set (amb := (2 <= count_char "@" rest)%nat \/
              (count_char "@" rest = 1%nat /\
               count_char ":" (hd EmptyString (split "@" rest)) <> 1%nat)).
  pose proof (split_length "@" rest) as Hl.
  pose proof (split_length ":" (hd EmptyString (split "@" rest))) as Hc.
  pose proof (split1_shape "/" (last (split "@" rest) EmptyString)) as Hb.
  assert (Hdec : amb \/ ~ amb) by (unfold amb; lia).
  destruct Hdec as [Ha|Ha].
  - assert (Hr : (length (split "@" rest) =? 1)%nat = false /\
                 ((length (split "@" rest) =? 2)%nat &&
                  (length (split ":" (hd EmptyString (split "@" rest))) =? 2)%nat)
                 = false).
    { unfold amb in Ha.
      destruct (Nat.eqb_spec (length (split "@" rest)) 1); [lia|].
      destruct (Nat.eqb_spec (length (split "@" rest)) 2); [|auto].
      destruct (Nat.eqb_spec
                  (length (split ":" (hd EmptyString (split "@" rest)))) 2);
        [lia | auto]. }
    destruct Hr as [-> ->]. clearbody amb.
    repeat split; intros; try discriminate; try tauto;
      try (destruct H as [? H]; discriminate).
  - assert (Hlen : (length (split "@" rest) = 1 \/
                    (length (split "@" rest) = 2 /\
                     length (split ":" (hd EmptyString (split "@" rest))) = 2))%nat)
      by (unfold amb in Ha; lia).
    clearbody amb.
    destruct (split "@" rest) as [|x [|y [|z l]]] eqn:Es; cbn [length] in *;
      try lia; cbn [Nat.eqb hd nth andb last] in *.
    + destruct (mem "/" x).
      * destruct Hb as (bk & k & ->). cbn [unpack2].
        repeat split; intros; try discriminate; try tauto; eauto.
        destruct H as [_ H]; discriminate.
      * rewrite Hb. cbn [unpack2].
        repeat split; intros; try discriminate; try tauto.
        -- destruct H as [? H]; discriminate.
        -- destruct H as [_ H]; discriminate.
    + destruct Hlen as [Hlen|[_ Hlen]]; [lia|].
      destruct (split ":" x) as [|a [|c [|c' l]]] eqn:Ec; cbn [length] in *;
        try lia. cbn [Nat.eqb unpack2].
      destruct (mem "/" y).
      * destruct Hb as (bk & k & ->). cbn [unpack2].
        repeat split; intros; try discriminate; try tauto; eauto.
        destruct H as [_ H]; discriminate.
      * rewrite Hb. cbn [unpack2].
        repeat split; intros; try discriminate; try tauto.
        -- destruct H as [? H]; discriminate.
        -- destruct H as [_ H]; discriminate.
Qed.

Lemma ParseUri_s3_errors_witness :
  ParseUri false "s3://key@mybucket/k" "file" = Raise RuntimeError.
Proof.
  assert (Hp : plain "key@mybucket/k") by (repeat split).
  apply (proj1 (@ParseUri_s3_errors false false "file" "key@mybucket/k" Hp)).
  right. split; [reflexivity | discriminate].
Defined.






Lemma split_parts c s : Forall (fun x => mem c x = false) (split c s).
Proof.
  induction s as [|x r IH]; simpl; [repeat constructor|].
  destruct (Ascii.eqb x c) eqn:E; [constructor; auto|].
  destruct (split c r) as [|h t]; [repeat constructor; simpl; rewrite E; auto|].
  inversion IH; subst. constructor; [|assumption].
  simpl. rewrite E. assumption.
Qed.

Lemma split1_pair c s a b :
  split1 c s = [a; b] -> mem c a = false /\ s = a ++ String c b.
Proof.
  revert a b; induction s as [|x r IH]; simpl; intros a b; [discriminate|].
  destruct (Ascii.eqb_spec x c) as [->|Hx].
  - intros H; inversion H; subst. auto.
  - destruct (split1 c r) as [|h [|h' [|h'' t]]]; try discriminate.
    intros H; inversion H; subst.
    destruct (IH h b eq_refl) as [Hm ->]. split; [|reflexivity].
    simpl. rewrite Hm. destruct (Ascii.eqb_spec x c); [contradiction|reflexivity].
Qed.

(** [c.join(s.split(c)) == s] *)
Lemma split_join c s : String.concat (String c EmptyString) (split c s) = s.
Proof.
  induction s as [|x r IH]; [reflexivity|]. cbn [split].
  destruct (Ascii.eqb_spec x c) as [->|Hx].
  - destruct (split c r) as [|h t] eqn:E.
    + pose proof (split_length c r) as Hl. rewrite E in Hl. discriminate.
    + cbn [String.concat] in *. rewrite IH. reflexivity.
  - destruct (split c r) as [|h t] eqn:E.
    + pose proof (split_length c r) as Hl. rewrite E in Hl. discriminate.
    + cbn [String.concat] in *. destruct t; cbn [append]; rewrite <- IH;
        reflexivity.
Qed.

(** The shape of the descriptors [ParseUri] returns. *)
Lemma parsed_well_formed (nt : bool) (uri default_scheme : string)
        (u : ParsedUri) :
  ParseUri nt uri default_scheme = Ok u ->
  match u with
  | PathUri scheme uri_path =>
      (scheme = "hdfs" \/ scheme = "file") /\ uri_path <> EmptyString
  | S3Uri scheme bucket_id key_id access_id access_secret =>
      (scheme = "s3" \/ scheme = "s3n") /\
      mem "/" bucket_id = false /\ mem "@" bucket_id = false /\
      mem "@" key_id = false /\
      match access_id, access_secret with
      | None, None => True
      | Some a, Some c =>
          mem ":" a = false /\ mem ":" c = false /\
          mem "@" a = false /\ mem "@" c = false
      | _, _ => False
      end
  end.
Proof.
  unfold ParseUri.
  destruct (urlsplit _) as [p|e]; [|discriminate].
  set (sch := if nonempty (Uri.scheme p) then Uri.scheme p else default_scheme).
  set (loc := netloc p ++ path p).
  destruct (String.eqb_spec sch "hdfs") as [Eh|_].
  { destruct loc; cbn [nonempty negb]; [discriminate|].
    intros H; inversion H; subst. split; [auto | discriminate]. }
  destruct (String.eqb_spec sch "s3") as [E3|_];
    [|destruct (String.eqb_spec sch "s3n") as [E3n|_]]; cbn [orb].
  3: { destruct (String.eqb_spec sch "file") as [Ef|_]; [|discriminate].
       destruct loc; cbn [nonempty negb]; [discriminate|].
       intros H; inversion H; subst. split; [auto | discriminate]. }
  all: assert (Hs : sch = "s3" \/ sch = "s3n") by auto;
    pose proof (split_parts "@" loc) as Hat;
    destruct (split "@" loc) as [|x [|y [|z l]]]; cbn [length Nat.eqb hd nth andb];
    try discriminate.
  all: try (destruct (split1 "/" x) as [|bk [|k [|k' t]]] eqn:E1;
            cbn [unpack2]; try discriminate;
            intros H; inversion H; subst u;
            destruct (split1_pair _ _ E1) as [Hm ->];
            inversion Hat as [|? ? Hx _]; subst;
            rewrite mem_app in Hx; cbn [mem] in Hx;
            apply orb_false_iff in Hx; destruct Hx as [Hx1 Hx2];
            auto).
  all: pose proof (split_parts ":" x) as Hco;
    destruct (split ":" x) as [|a [|c [|c' t]]] eqn:Ec; cbn [length Nat.eqb];
    try discriminate; cbn [unpack2];
    destruct (split1 "/" y) as [|bk [|k [|k' t']]] eqn:E1;
    cbn [unpack2]; try discriminate;
    intros H; inversion H; subst u;
    destruct (split1_pair _ _ E1) as [Hm ->];
    inversion Hat as [|? ? Hx Hat']; subst;
    inversion Hat' as [|? ? Hy _]; subst;
    rewrite mem_app in Hy; cbn [mem] in Hy;
    apply orb_false_iff in Hy; destruct Hy as [Hy1 Hy2];
    inversion Hco as [|? ? Ha Hco']; subst;
    inversion Hco' as [|? ? Hcc _]; subst.
  all: pose proof (split_join ":" x) as Hj; rewrite Ec in Hj;
    cbn [String.concat] in Hj; rewrite <- Hj, mem_app in Hx; cbn [append mem] in Hx;
    apply orb_false_iff in Hx; destruct Hx as [Hxa Hxc].
  all: repeat split; auto.
Qed.

(** X16. Whatever it is given, a descriptor that [ParseUri] returns is
    well formed: a path descriptor has the scheme [hdfs] or [file] and a
    non-empty path; an object-store descriptor has the scheme [s3] or
    [s3n], a bucket without [/] and without [@], a key without [@], and
    its credentials either both unset, or both set and free of [:] and
    [@]. *)
Theorem ParseUri_well_formed (nt : bool) (uri default_scheme : string)
        (u : ParsedUri) :
  ParseUri nt uri default_scheme = Ok u ->
  match u with
  | PathUri scheme uri_path =>
      (scheme = "hdfs" \/ scheme = "file") /\ uri_path <> EmptyString
  | S3Uri scheme bucket_id key_id access_id access_secret =>
      (scheme = "s3" \/ scheme = "s3n") /\
      mem "/" bucket_id = false /\ mem "@" bucket_id = false /\
      mem "@" key_id = false /\
      match access_id, access_secret with
      | None, None => True
      | Some a, Some c =>
          mem ":" a = false /\ mem ":" c = false /\
          mem "@" a = false /\ mem "@" c = false
      | _, _ => False
      end
  end.
Proof. intros H; exact (parsed_well_formed _ _ _ H). Qed.

Lemma ParseUri_well_formed_witness :
  mem "/" "mybucket" = false /\ mem "@" "path/to/key" = false /\
  mem ":" "secret" = false.
Proof.
  pose proof (@ParseUri_well_formed false
                "s3://AKIA0:secret@mybucket/path/to/key" "file"
                (S3Uri "s3" "mybucket" "path/to/key" (Some "AKIA0") (Some "secret"))
                eq_refl) as H.
  cbv beta iota in H.
  destruct H as (_ & H1 & _ & H2 & _ & H3 & _).
  split; [exact H1 | split; [exact H2 | exact H3]].
Defined.

End UriResolves.

(** ** What the bucket iterator yields *)

Section BucketIterResults.

Import BucketIter.
Local Open Scope list_scope.

Lemma remove_nth_perm {A} (i : nat) (l : list A) (d : A) :
  (i < length l)%nat -> Permutation l (nth i l d :: remove_nth i l).
Proof.
  revert i; induction l as [|x l IH]; intros [|i] H; simpl in *; try lia.
  - reflexivity.
  - rewrite perm_swap. constructor. apply IH. lia.
Qed.

Lemma closed_app ev1 ev2 : closed (ev1 ++ ev2) = closed ev1 ++ closed ev2.
Proof. apply flat_map_app. Qed.

Lemma closed_started (ks : list Key) :
  closed (map (fun k => Fetch (name k)) ks) = [].
Proof. induction ks; simpl; auto. Qed.

(** The pool hands out the result of one of its tasks and keeps the
    others. *)
Lemma pool_next_perm p r p' ev :
  pool_ok p ->
  pool_next p = (Some r, p', ev) ->
  exists k, r = (k, contents k) /\
            Permutation (running p ++ queue p) (k :: running p' ++ queue p') /\
            closed ev = [] /\ pool_ok p'.
Proof.
  unfold pool_next, pool_ok. intros Hok.
  destruct (running p) as [|k0 rs] eqn:Er; [discriminate|].
  set (i := (hd 0 (picks p) mod length (k0 :: rs))%nat).
  assert (Hi : (i < length (k0 :: rs))%nat)
    by (apply Nat.mod_upper_bound; discriminate).
  pose proof (@remove_nth_perm _ i (k0 :: rs) k0 Hi) as Hp.
  destruct (queue p) as [|q qs]; intros H; inversion H; subst; clear H;
    exists (nth i (k0 :: rs) k0); cbn [running queue];
    (split; [reflexivity|]); repeat split; auto.
  - rewrite !app_nil_r. exact Hp.
  - rewrite <- app_assoc. exact (Permutation_app_tail (q :: qs) Hp).
  - intros E. apply app_eq_nil in E. destruct E; discriminate.
Qed.

Lemma for_loop_results (a : args) (fuel : nat) :
  forall key_no key content total_size p rs ev,
    pool_ok p ->
    for_loop a fuel (Suspended key_no key content total_size p)
    = Some (rs, ev) ->
    closed ev = name key :: map fst rs /\
    exists left,
      Permutation (map result_of (running p ++ queue p)) (rs ++ left) /\
      (key_limit a = None -> left = []).
Proof.
  induction fuel as [|fuel IH];
    intros key_no key content total_size p rs ev Hok;
    cbn [for_loop next]; [discriminate|].
  destruct (match key_limit a with Some l => key_no + 1 >=? l | None => false end)
    eqn:Hstop.
  - intros H; inversion H; subst. split; [reflexivity|].
    exists (map result_of (running p ++ queue p)). split; [reflexivity|].
    intros E. rewrite E in Hstop. discriminate.
  - unfold loop_head.
    destruct (pool_next p) as [[[[k c]|] p'] ev1] eqn:Hn.
    + destruct (pool_next_perm Hok Hn) as (k0 & Hr & Hp & Hc & Hok').
      inversion Hr; subst k0 c. clear Hr.
      destruct (for_loop a fuel
                  (Suspended (key_no + 1) k (contents k)
                             (total_size + len content) p'))
        as [[rs' ev']|] eqn:Hf; [|discriminate].
      intros H; inversion H; subst.
      destruct (IH _ _ _ _ _ _ _ Hok' Hf) as (Hcl & left & Hperm & Hnone).
      split.
      * cbn [closed flat_map app]. change (flat_map _ ?l) with (closed l).
        rewrite closed_app, Hc, Hcl. reflexivity.
      * exists left. split; [|exact Hnone].
        rewrite (Permutation_map result_of Hp). cbn [map app].
        constructor. exact Hperm.
    + intros H; inversion H; subst.
      unfold pool_next in Hn. destruct (running p) eqn:Er.
      * inversion Hn; subst. split; [reflexivity|]. exists [].
        rewrite (Hok Er). split; [reflexivity | auto].
      * destruct (queue p); discriminate.
Qed.

(** X17. A loop over [s3_iter_bucket] that runs to its end yields no
    key twice and none that was not accepted: the results, with those of
    the keys left over when the limit stopped the loop, are the results
    of the accepted keys in some order; without a limit nothing is left
    over.  Each result is the name of a key with its contents, and every
    key yielded is closed, in the order of the results. *)
Theorem s3_iter_bucket_results
        (a : args) (rs : list (string * bytes)) (ev : list event) :
  s3_iter_bucket a = Some (rs, ev) ->
  closed ev = map fst rs /\
  exists left,
    Permutation (map result_of (keys a)) (rs ++ left) /\
    (key_limit a = None -> left = []).
Proof.
  unfold s3_iter_bucket. cbn [for_loop next imap_unordered].
  set (w := Pos.to_nat (workers a)).
  assert (Hw : (0 < w)%nat) by apply Pos2Nat.is_pos.
  set (p0 := {| running := firstn w (keys a); queue := skipn w (keys a);
                picks := completion a |}).
  assert (Hall : running p0 ++ queue p0 = keys a)
    by (apply firstn_skipn).
  assert (Hok : pool_ok p0).
  { unfold pool_ok, p0. cbn [running queue]. intros E.
    destruct (keys a); [destruct w; reflexivity|].
    destruct w; [lia | discriminate]. }
  unfold loop_head.
  destruct (pool_next p0) as [[[[k c]|] p'] ev1] eqn:Hn.
  - destruct (pool_next_perm Hok Hn) as (k0 & Hr & Hp & Hc & Hok').
    inversion Hr; subst k0 c. clear Hr.
    destruct (for_loop a (length (keys a))
                (Suspended 0 k (contents k) 0 p'))
      as [[rs' ev']|] eqn:Hf; [|discriminate].
    intros H; inversion H; subst.
    destruct (@for_loop_results a _ _ _ _ _ _ _ _ Hok' Hf)
      as (Hcl & left & Hperm & Hnone).
    split.
    + cbn [closed flat_map app]. change (flat_map _ ?l) with (closed l).
      rewrite !closed_app, closed_started, Hc, Hcl. reflexivity.
    + exists left. split; [|exact Hnone].
      rewrite <- Hall, (Permutation_map result_of Hp). cbn [map app].
      constructor. exact Hperm.
  - intros H; inversion H; subst.
    assert (Hk : keys a = []).
    { unfold pool_next in Hn. destruct (running p0) eqn:Er.
      - rewrite <- Hall, (Hok Er). reflexivity.
      - destruct (queue p0); discriminate. }
    assert (He : ev1 = []).
    { unfold pool_next in Hn. destruct (running p0).
      - inversion Hn; reflexivity.
      - destruct (queue p0); discriminate. }
    subst ev1. split.
    + cbn [closed flat_map app]. change (flat_map _ ?l) with (closed l).
      rewrite !closed_app, closed_started. reflexivity.
    + exists []. rewrite Hk. split; [reflexivity | auto].
Qed.

Lemma s3_iter_bucket_results_witness :
  let a := {| bucket := two_keys; prefix := EmptyString;
              accept_key := fun _ => true; key_limit := None;
              workers := 2; completion := [1%nat] |} in
  exists rs ev,
    s3_iter_bucket a = Some (rs, ev) /\
    closed ev = map fst rs /\
    exists left,
      Permutation (map result_of (keys a)) (rs ++ left) /\
      (key_limit a = None -> left = []).
Proof.
  intros a. eexists. eexists. split; [reflexivity|].
  apply (@s3_iter_bucket_results a). reflexivity.
Defined.

End BucketIterResults.

(** ** Local files and their extensions *)

Section FilesFacts.

Import Files.
Local Open Scope string_scope.

Lemma rfind_bounds c s : -1 <= rfind c s < Z.of_nat (String.length s).
Proof.
  induction s as [|x r IH]; cbn [rfind String.length]; [lia|].
  destruct (rfind c r >=? 0) eqn:E.
  - apply Z.geb_le in E. lia.
  - destruct (Ascii.eqb x c); lia.
Qed.

Lemma rfind_app c s e :
  rfind c (s ++ e)
  = if rfind c e >=? 0 then Z.of_nat (String.length s) + rfind c e
    else rfind c s.
Proof.
  induction s as [|x r IH]; cbn [append rfind String.length].
  - destruct (rfind c e >=? 0) eqn:E; [lia|].
    pose proof (rfind_bounds c e). rewrite Z.geb_leb in E.
    apply Z.leb_gt in E. lia.
  - rewrite IH. pose proof (rfind_bounds c e) as Hb.
    destruct (rfind c e >=? 0) eqn:E.
    + apply Z.geb_le in E.
      replace (Z.of_nat (String.length r) + rfind c e >=? 0) with true
        by (symmetry; apply Z.geb_le; lia).
      lia.
    + reflexivity.
Qed.

Lemma take_app_length s e : take (String.length s) (s ++ e) = s.
Proof.
  induction s as [|x r IH]; cbn [String.length append take].
  - destruct e; reflexivity.
  - rewrite IH. reflexivity.
Qed.

Lemma drop_app_length s e : drop (String.length s) (s ++ e) = e.
Proof. induction s as [|x r IH]; cbn [String.length append drop]; auto. Qed.

Lemma length_drop n s :
  String.length (drop n s) = (String.length s - n)%nat.
Proof.
  revert s; induction n as [|n IH]; intros [|x r]; cbn [drop String.length];
    auto; lia.
Qed.

Lemma drop_app n s e :
  (n <= String.length s)%nat -> drop n (s ++ e) = drop n s ++ e.
Proof.
  revert s; induction n as [|n IH]; intros [|x r]; cbn [drop String.length append];
    intros H; auto; try lia.
  apply IH. lia.
Qed.

Lemma splitext_compressed nt stem ext o :
  compressed ext = Some o -> named nt stem ->
  splitext nt (stem ++ ext) = (stem, ext).
Proof.
  intros Hc Hn.
  assert (He : ext = ".bz2" \/ ext = ".gz").
  { unfold compressed in Hc.
    destruct (String.eqb_spec ext ".bz2"); [auto|].
    destruct (String.eqb_spec ext ".gz"); [auto | discriminate]. }
  assert (Hdot : rfind "." ext = 0 /\ rfind "/" ext = -1 /\ rfind "\" ext = -1)
    by (destruct He as [-> | ->]; repeat split).
  destruct Hdot as (Hd & Hs & Hb).
  unfold splitext, _splitext, named in *.
  rewrite !(rfind_app _ stem ext), Hd, Hs, ?Hb. cbn [Z.geb Z.compare].
  rewrite Z.add_0_r.
  pose proof (rfind_bounds "/" stem) as B1.
  pose proof (rfind_bounds "\" stem) as B2.
  destruct nt.
  - set (i := Z.max (rfind "\" stem) (rfind "/" stem)) in *.
    replace (Z.of_nat (String.length stem) >? i) with true
      by (symmetry; apply Z.gtb_lt; lia).
    rewrite drop_app by lia.
    replace (Z.to_nat (Z.of_nat (String.length stem) - (i + 1)))
      with (String.length (drop (Z.to_nat (i + 1)) stem))
      by (rewrite length_drop; lia).
    rewrite take_app_length, Hn. cbn [negb].
    rewrite Nat2Z.id, take_app_length, drop_app_length. reflexivity.
  - set (i := rfind "/" stem) in *.
    replace (Z.of_nat (String.length stem) >? i) with true
      by (symmetry; apply Z.gtb_lt; lia).
    rewrite drop_app by lia.
    replace (Z.to_nat (Z.of_nat (String.length stem) - (i + 1)))
      with (String.length (drop (Z.to_nat (i + 1)) stem))
      by (rewrite length_drop; lia).
    rewrite take_app_length, Hn. cbn [negb].
    rewrite Nat2Z.id, take_app_length, drop_app_length. reflexivity.
Qed.

(** X18. A name that ends in [.gz] or [.bz2] is opened with the codec
    of that extension, whatever the directory and the mode, provided
    the last component has a name before the extension, that is a
    character other than a dot. *)
Theorem file_smart_open_compressed
        (nt : bool) (stem ext mode : string) (o : opener) :
  compressed ext = Some o -> named nt stem ->
  file_smart_open nt (stem ++ ext) mode
  = {| opened_by := o; fname := stem ++ ext; fmode := mode |}.
Proof.
  intros Hc Hn. unfold file_smart_open.
  rewrite (splitext_compressed _ Hc Hn). cbn [snd].
  unfold compressed in Hc.
  destruct (ext =? ".bz2"); [inversion Hc; reflexivity|].
  destruct (ext =? ".gz"); [inversion Hc; reflexivity | discriminate].
Qed.

Lemma file_smart_open_compressed_witness :
  file_smart_open false "/home/joe/lines.txt.gz" "rb"
  = {| opened_by := GzipFile; fname := "/home/joe/lines.txt.gz";
       fmode := "rb" |}.
Proof.
  apply (@file_smart_open_compressed false "/home/joe/lines.txt" ".gz" "rb"
           GzipFile); reflexivity.
Defined.

(** X19. A file whose whole name is [.gz] or [.bz2], in any directory,
    has no extension for [splitext] and is opened with the built-in
    [open], uncompressed; so is a name without any dot. *)
Theorem file_smart_open_plain (dir ext name mode : string) (o : opener) :
  compressed ext = Some o ->
  Uri.mem "." name = false ->
  opened_by (file_smart_open false (dir ++ "/" ++ ext) mode) = builtin_open /\
  opened_by (file_smart_open false (dir ++ "/" ++ name) mode) = builtin_open.
Proof.
  intros Hc Hn.
  assert (He : ext = ".bz2" \/ ext = ".gz").
  { unfold compressed in Hc.
    destruct (String.eqb_spec ext ".bz2"); [auto|].
    destruct (String.eqb_spec ext ".gz"); [auto | discriminate]. }
  assert (Hno : forall s, Uri.mem "." s = false -> rfind "." s = -1).
  { induction s as [|x r IH]; cbn [Uri.mem rfind]; [reflexivity|].
    destruct (Ascii.eqb x "."); [discriminate|]. cbn [orb].
    intros H. rewrite (IH H). reflexivity. }
  pose proof (rfind_bounds "." dir) as Bd.
  pose proof (rfind_bounds "/" name) as Bn.
  split.
  - unfold file_smart_open, splitext, _splitext.
    rewrite !(rfind_app _ dir ("/" ++ ext)).
    replace (rfind "." ("/" ++ ext)) with 1 by (destruct He as [-> | ->]; reflexivity).
    replace (rfind "/" ("/" ++ ext)) with 0 by (destruct He as [-> | ->]; reflexivity).
    cbn [Z.geb Z.compare].
    replace (Z.of_nat (String.length dir) + 1 >? Z.of_nat (String.length dir) + 0)
      with true by (symmetry; apply Z.gtb_lt; lia).
    replace (Z.to_nat (Z.of_nat (String.length dir) + 1
                       - (Z.of_nat (String.length dir) + 0 + 1))) with O by lia.
    destruct (drop _ _); reflexivity.
  - unfold file_smart_open, splitext, _splitext.
    rewrite !(rfind_app _ dir ("/" ++ name)).
    assert (Hd : rfind "." ("/" ++ name) = -1) by (apply Hno; exact Hn).
    rewrite Hd. cbn [Z.geb Z.compare].
    assert (Hs : 0 <= rfind "/" ("/" ++ name)).
    { cbn [append rfind]. destruct (rfind "/" name >=? 0) eqn:E.
      - apply Z.geb_le in E. lia.
      - cbn. lia. }
    replace (rfind "/" ("/" ++ name) >=? 0) with true
      by (symmetry; apply Z.geb_le; exact Hs).
    replace (rfind "." dir >? Z.of_nat (String.length dir) + rfind "/" ("/" ++ name))
      with false by (symmetry; rewrite Z.gtb_ltb; apply Z.ltb_ge; lia).
    reflexivity.
Qed.

Lemma file_smart_open_plain_witness :
  opened_by (file_smart_open false "/home/joe/.gz" "rb") = builtin_open /\
  opened_by (file_smart_open false "/home/joe/lines" "rb") = builtin_open.
Proof.
  apply (@file_smart_open_plain "/home/joe" ".gz" "lines" "rb" GzipFile);
    reflexivity.
Defined.

End FilesFacts.

(** ** Opening a location *)

Section OpenFacts.

Import Uri Open.
Local Open Scope string_scope.










(** X24. [smart_open] reads no attribute that [ParseUri] did not set:
    it never ends in an [AttributeError].  And what it returns fits the
    mode: a reader of S3 or of HDFS only in the modes [r] and [rb], a
    writer only in the modes [w] and [wb] and only for S3. *)
Theorem smart_open_consistent (env : s3_env) (nt : bool) (uri mode : string) :
  match smart_open env nt uri mode with
  | inl (AttributeError _) => False
  | inl (Raised _) => True
  | inr (LocalFile _) => True
  | inr (S3Reader r) =>
      read_mode mode = true /\
      (scheme_of (s3_uri r) = "s3" \/ scheme_of (s3_uri r) = "s3n")
  | inr (HdfsReader r) =>
      read_mode mode = true /\ scheme_of (hdfs_uri r) = "hdfs"
  | inr (S3Writer _ _ _) =>
      read_mode mode = false /\ write_mode mode = true
  end.
Proof.
  unfold smart_open, read_mode, write_mode.
  destruct (ParseUri nt uri "file") as [u|e] eqn:Hu; cbn [lift]; [|exact I].
  pose proof (parsed_well_formed _ _ _ Hu) as Hwf.
  destruct u as [sch path | sch b k i sec]; cbn [scheme_of].
  - destruct Hwf as [[-> | ->] _];
      cbn [String.eqb Ascii.eqb Bool.eqb orb]; [|exact I].
    destruct ((mode =? "r") || (mode =? "rb")); [cbn; auto|].
    destruct ((mode =? "w") || (mode =? "wb")); exact I.
  - destruct Hwf as [[-> | ->] _];
      cbn [String.eqb Ascii.eqb Bool.eqb orb].
    all: destruct ((mode =? "r") || (mode =? "rb")) eqn:Hr.
    all: try (unfold S3OpenRead_init, lookup_key; cbn [scheme_of];
              cbn [String.eqb Ascii.eqb Bool.eqb orb negb];
              destruct (lookup env b k) as [[content|]|e]; cbn; auto; fail).
    all: destruct ((mode =? "w") || (mode =? "wb")) eqn:Hw; [|exact I].
    all: destruct (get_bucket env b) as [[]|e]; cbn [lift]; [|exact I];
      destruct (Writer.__init__ _ _) as [[[]|e] w]; cbn; auto.
Qed.

End OpenFacts.

(** ** Positional reads *)

Section ReaderPieces.

Import Reader.

Lemma firstn_skipn_length {A} (m : nat) (l : list A) :
  firstn m l ++ skipn (length (firstn m l)) l = l.
Proof.
  rewrite length_firstn.
  destruct (Nat.le_ge_cases m (length l)) as [H|H].
  - rewrite Nat.min_l by exact H. apply firstn_skipn.
  - rewrite Nat.min_r by exact H.
    rewrite firstn_all2, skipn_all by exact H. apply app_nil_r.
Qed.

(** X25. Reads follow one another: when bytes are left, a [read(n)]
    with [n > 0] returns the next [n] of them, fewer at the end of the
    object, and the [read()] after it returns all the rest, so that the
    two make up what was left. *)
Theorem read_in_pieces (n : Z) (k : ReadKey) :
  0 < n -> (cursor k < length (data k))%nat ->
  let rest := skipn (cursor k) (data k) in
  let out := fst (read (Some n) k) in
  out = firstn (Z.to_nat n) rest /\
  out <> [] /\
  out ++ fst (read None (snd (read (Some n) k))) = rest.
Proof.
  intros Hn Hc. cbv zeta.
  set (rest := skipn (cursor k) (data k)).
  set (out := firstn (Z.to_nat n) rest).
  assert (Hrest : rest <> []).
  { intros E. apply (f_equal (@length byte)) in E.
    unfold rest in E. rewrite length_skipn in E. simpl in E. lia. }
  assert (Hout : out <> []).
  { unfold out. destruct rest as [|x r]; [congruence|].
    destruct (Z.to_nat n) eqn:E; [lia | discriminate]. }
  assert (E1 : read (Some n) k
               = (out, {| data := data k;
                          resp := Some (cursor k + length out)%nat |})).
  { unfold read.
    replace ((n =? 0) || (n <? 0)) with false
      by (symmetry; apply orb_false_iff; split;
          [apply Z.eqb_neq | apply Z.ltb_ge]; lia).
    unfold key_read. replace (n =? 0) with false
      by (symmetry; apply Z.eqb_neq; lia).
    fold rest. fold out. destruct out; [congruence | reflexivity]. }
  rewrite E1. cbn [fst snd].
  split; [reflexivity|]. split; [exact Hout|].
  unfold read, key_read, cursor at 1. cbn [data resp fst].
  change (0 =? 0) with true. cbv iota.
  rewrite Nat.add_comm, <- skipn_skipn. fold rest.
  apply firstn_skipn_length.
Qed.

Lemma read_in_pieces_witness :
  let k := {| data := [x61; x62; x63; x64]; resp := Some 1%nat |} in
  fst (read (Some 2) k) = [x62; x63] /\
  fst (read (Some 2) k) <> [] /\
  fst (read (Some 2) k) ++ fst (read None (snd (read (Some 2) k)))
  = [x62; x63; x64].
Proof.
  intros k. apply (@read_in_pieces 2 k); [lia | cbv; repeat constructor].
Defined.

(** X26. [seek] knows one move, back to the start: [seek(0)] closes the
    response, and the [read()] that follows returns the whole object,
    wherever the cursor was; any other offset or [whence] raises
    [NotImplementedError]. *)
Theorem seek_rewinds (offset whence : Z) (k : ReadKey) :
  match seek offset whence k with
  | Ok k' =>
      offset = 0 /\ whence = 0 /\ fst (read None k') = data k
  | Raise e =>
      e = NotImplementedError /\ (offset <> 0 \/ whence <> 0)
  end.
Proof.
  unfold seek.
  destruct (Z.eqb_spec whence 0) as [->|Hw];
    destruct (Z.eqb_spec offset 0) as [->|Ho]; cbn [negb orb];
    try (split; [reflexivity | lia]).
  repeat split.
Qed.

End ReaderPieces.

(** ** Small uploads *)

Section WriterSmall.

Import Writer.
Local Open Scope writer_scope.

Lemma block_buffers payloads st :
  chunk_bytes (self st) + len (concat payloads) < min_part_size (self st) ->
  exists st1,
    block (map Write (map PyBytes payloads)) st = (Ok tt, st1) /\
    trace (s3 st1) = trace (s3 st) /\
    lines (self st1) = lines (self st) ++ payloads /\
    parts (self st1) = parts (self st) /\
    total_size (self st1) = total_size (self st) + len (concat payloads).
Proof.
  revert st; induction payloads as [|b rest IH]; intros st Hlt;
    cbn [map block concat] in *.
  - exists st. unfold ret. rewrite app_nil_r.
    change (len (@nil byte)) with 0. repeat split; lia.
  - rewrite len_app in Hlt.
    pose proof (len_nonneg (concat rest)) as H0.
    pose proof (len_nonneg b) as H1.
    unfold bind. cbn [perform].
    pose proof (write_bytes_cases b st) as H; cbv zeta in H.
    replace (chunk_bytes (self st) + len b >=? min_part_size (self st))
      with false in H
      by (symmetry; rewrite Z.geb_leb; apply Z.leb_gt; lia).
    destruct H as (_ & Ht & Hf & Hs).
    destruct (write (PyBytes b) st) as [r st2]; cbn [fst snd] in *. subst r.
    destruct (IH st2) as (st1 & Hb & Ht1 & Hl1 & Hp1 & Htot1).
    { rewrite Hs. cbn [chunk_bytes min_part_size]. lia. }
    exists st1. split; [exact Hb|].
    rewrite Ht1, Hl1, Hp1, Htot1, Ht, Hs. cbn [lines parts total_size].
    rewrite <- app_assoc, len_app. repeat split; try reflexivity. lia.
Qed.

(** X27. A session that writes less than [min_part_size] bytes in all
    sends nothing before [close]: the whole content goes up as the
    single part 1 when [close] is called, and no part at all when
    nothing was written. *)
Theorem small_session_single_part
        (T : Z) (payloads : list bytes) (answers : list (option exn))
        (st' : session) :
  len (concat payloads) < T ->
  plain_session T (map PyBytes payloads) (fresh answers) = (Ok tt, st') ->
  uploaded (trace (s3 st'))
  = if truthy (concat payloads) then [(1, concat payloads)] else [].
Proof.
  intros Hlt. unfold plain_session. unfold bind at 1.
  destruct (__init__ T (fresh answers)) as [[[]|e] st0] eqn:Hi; [|discriminate].
  apply init_inv in Hi. destruct Hi as [Hw Ht0].
  destruct (block_buffers payloads st0) as (st1 & Hb & Ht1 & Hl1 & Hp1 & _).
  { rewrite Hw. cbn [chunk_bytes min_part_size new_writer]. lia. }
  unfold bind at 1. rewrite Hb. intros Hc.
  rewrite (close_ok_trace _ Hc), Ht1, Ht0, Hl1, Hp1, Hw.
  cbn [lines parts new_writer app]. unfold join.
  destruct (truthy (concat payloads));
    destruct (total_size (self st1) =? 0); reflexivity.
Qed.

Lemma small_session_single_part_witness :
  let payloads := [[x61]; [x62; x63]; []] in
  uploaded (trace (s3 (snd (plain_session 10 (map PyBytes payloads) (fresh [])))))
  = [(1, [x61; x62; x63])].
Proof.
  intros payloads.
  apply (@small_session_single_part 10 payloads []); [vm_compute|]; reflexivity.
Defined.

End WriterSmall.

(** ** Abandoned iterations *)

Section BucketIterAbandoned.

Import BucketIter.

Lemma take_abandoned_witness :
  existsb is_terminate
          (snd (take (two_keys_args None 1) 2 Created)) = false.
Proof.
  apply (@take_abandoned (two_keys_args None 1) 2 Created
           (fst (take (two_keys_args None 1) 2 Created))
           (snd (take (two_keys_args None 1) 2 Created)));
    [discriminate | reflexivity | reflexivity].
Defined.

End BucketIterAbandoned.

(** ** Complete iterations and the end of the scope *)

Section BucketIterRuns.

Import BucketIter.


End BucketIterRuns.

Section WriterExit.

Import Writer.

(** X29. Leaving the [with] statement, with or without an exception and
    whatever the backend answers, sends the cancellation twice at most,
    and sends no part after an exception. *)
Theorem exit_requests_bounded (type : option exn) (st : session) :
  (count is_cancel (issued st (snd (leave_scope type st))) <= 2)%nat /\
  match type with
  | Some _ => uploaded (issued st (snd (leave_scope type st))) = []
  | None => True
  end.
Proof.
  split; [exact (exit_cancels_at_most_twice type st)|].
  destruct type as [e|]; [|exact I].
  unfold leave_scope, __exit__, _termination_error, try_except,
    bind, get_self, ret, raise, request, issued.
  destruct (script (s3 st)) as [|[e'|] sc]; simpl;
    rewrite skipn_length_app; reflexivity.
Qed.

End WriterExit.
